(** * The game tree reducer of [src/utils/treeReducer.ts]

    A shallow embedding of the tree model, of path addressing, of the
    mutation algorithms and of the action dispatcher, followed by the
    properties of the specification that were checked against it.

    Conventions of the embedding.
    - A JavaScript [number] used as an index is an integer [Z]; arrays are
      lists, read with the JavaScript rule that an index outside
      [0 .. length-1] yields [undefined].
    - The state is a tree without sharing, so a reference to a node is its
      location: the chain of child indices from the root.  In-place mutation
      through a reference is an update of the tree at that location, and
      [===] on two references is equality of locations.
    - A call either completes, raises a [TypeError] (a property read on
      [undefined]), or completes after writing [undefined] into an array
      whose declared element type does not admit it. *)

From Stdlib Require Import ZArith Lia.
From stdpp Require Import base option list strings.

Set Warnings "-register-all".

Local Open Scope Z_scope.

(** ** Outcomes of a call *)

Module Js.

Inductive outcome (A : Type) : Type :=
| Returns (a : A)
| Throws
| StoresUndefined.

Arguments Returns {A} a.
Arguments Throws {A}.
Arguments StoresUndefined {A}.

Definition bind {A B} (m : outcome A) (k : A -> outcome B) : outcome B :=
  match m with
  | Returns a => k a
  | Throws => Throws
  | StoresUndefined => StoresUndefined
  end.

(** [arr[i]] *)
Definition index {A} (arr : list A) (i : Z) : option A :=
  if bool_decide (0 <= i) then arr !! Z.to_nat i else None.

(** [arr.slice(0, -1)] *)
Definition slice_init {A} (arr : list A) : list A :=
  take (length arr - 1)%nat arr.

(** [arr.slice(0, i)] for an integer [i >= 0] *)
Definition slice_to {A} (i : Z) (arr : list A) : list A :=
  take (Z.to_nat i) arr.

(** The start position that [arr.splice(start, ...)] works from. *)
Definition splice_start {A} (start : Z) (arr : list A) : nat :=
  let len := Z.of_nat (length arr) in
  if bool_decide (start < 0) then Z.to_nat (Z.max (len + start) 0)
  else Z.to_nat (Z.min start len).

(** [arr.splice(start, 1)]: the removed elements and the array left. *)
Definition splice1 {A} (start : Z) (arr : list A) : list A * list A :=
  let s := splice_start start arr in
  (take 1 (drop s arr), delete s arr).

(** [arr.findIndex((x, i) => p(i, x))], [-1] when nothing matches. *)
Fixpoint findIndex_from {A} (p : nat -> A -> bool) (i : nat) (arr : list A) : Z :=
  match arr with
  | [] => -1
  | x :: rest => if p i x then Z.of_nat i else findIndex_from p (S i) rest
  end.

Definition findIndex {A} (p : nat -> A -> bool) (arr : list A) : Z :=
  findIndex_from p 0 arr.

(** [findIndex] with a callback that may raise. *)
Fixpoint findIndexM_from {A} (p : A -> outcome bool) (i : nat) (arr : list A)
  : outcome Z :=
  match arr with
  | [] => Returns (-1)
  | x :: rest =>
      bind (p x) (fun b =>
        if b then Returns (Z.of_nat i) else findIndexM_from p (S i) rest)
  end.

Definition findIndexM {A} (p : A -> outcome bool) (arr : list A) : outcome Z :=
  findIndexM_from p 0 arr.

(** [arr.reduceRight((acc, v, i) => f(acc, v, i), init)]: the elements are
    visited from the last index down to the first. *)
Fixpoint reduceRight_from {A B} (f : B -> A -> Z -> B) (i : Z) (arr : list A)
  (init : B) : B :=
  match arr with
  | [] => init
  | x :: rest => f (reduceRight_from f (i + 1) rest init) x i
  end.

Definition reduceRight {A B} (f : B -> A -> Z -> B) (init : B) (arr : list A) : B :=
  reduceRight_from f 0 arr init.

(** The double nearest to an integer, ties to the even significand: an
    integer below 2^53 in magnitude is a double, and above, the doubles are
    the multiples of the power of two that leaves 53 significant bits. *)
Definition round_double (z : Z) : Z :=
  let a := Z.abs z in
  if a <? 2 ^ 53 then z
  else
    let ulp := 2 ^ (Z.log2 a - 52) in
    let q := a / ulp in
    let r := a mod ulp in
    let half := ulp / 2 in
    let q' :=
      if r <? half then q
      else if half <? r then q + 1
      else if Z.even q then q else q + 1 in
    Z.sgn z * (q' * ulp).

(** [x + y] on numbers that hold integers, as the ply indices the reducer
    creates do (no fraction, NaN or infinity): the exact sum, rounded. *)
Definition add (x y : Z) : Z := round_double (x + y).

End Js.

Import Js.

Notation "'let*' x := m 'in' k" := (Js.bind m (fun x => k))
  (at level 10, x pattern, m at level 200, k at level 200).

(** ** Data model *)

(** The part of a chess.js [Move] the reducer reads. *)
Record Move := mkMove {
  san : string;
  move_from : string;
  move_to : string;
}.

(** [Score] of [./score]: the reducer builds [{ type: "cp", value: 0 }]. *)
Record Score := mkScore {
  score_type : string;
  score_value : Z;
}.

(** Modelled from the spec: the [Annotation] enumeration of [./chess] is not
    among the sources; the specification names a symbolic quality marker
    "blunder/mistake/good/brilliant/none". *)
Inductive Annotation :=
| Annotation_None
| Annotation_Good
| Annotation_Brilliant
| Annotation_Mistake
| Annotation_Blunder.

#[global] Instance Annotation_eq_dec : EqDecision Annotation.
Proof. solve_decision. Defined.

(** [Outcome] of [./db]. *)
Inductive Outcome := Unknown | WhiteWin | BlackWin | Draw.

Inductive Orientation := white_side | black_side.

(** chessground's [DrawShape]: an origin, an optional destination, and
    further attributes of which the brush stands for all. *)
Record DrawShape := mkShape {
  orig : string;
  dest : option string;
  brush : option string;
}.

#[global] Instance DrawShape_eq_dec : EqDecision DrawShape.
Proof. solve_decision. Defined.

Record BestMoves := mkBest { score_of : Score }.

Record MoveAnalysis := mkAnalysis {
  best : BestMoves;
  novelty : bool;
}.

Inductive TreeNode := mkNode {
  fen : string;
  move : option Move;
  children : list TreeNode;
  score : option Score;
  depth : option Z;
  halfMoves : Z;
  shapes : list DrawShape;
  annotation : Annotation;
  commentHTML : string;
  commentText : string;
}.

Record GameHeaders := mkHeaders {
  id : Z;
  h_fen : string;
  event : string;
  site : string;
  date : option string;
  time : option string;
  round : option string;
  white : string;
  white_elo : option Z;
  black : string;
  black_elo : option Z;
  result : Outcome;
  time_control : option string;
  eco : option string;
  white_material : option Z;
  black_material : option Z;
  start : option (list Z);
  orientation : option Orientation;
}.

Record TreeState := mkState {
  root : TreeNode;
  headers : GameHeaders;
  position : list Z;
  dirty : bool;
}.

Record ListNode := mkListNode {
  ln_position : list Z;
  ln_node : TreeNode;
}.

(** Field updates, one per assignment form of the source. *)
Definition set_children (n : TreeNode) (c : list TreeNode) : TreeNode :=
  mkNode (fen n) (move n) c (score n) (depth n) (halfMoves n) (shapes n)
         (annotation n) (commentHTML n) (commentText n).

Definition set_score (n : TreeNode) (s : option Score) : TreeNode :=
  mkNode (fen n) (move n) (children n) s (depth n) (halfMoves n) (shapes n)
         (annotation n) (commentHTML n) (commentText n).

Definition set_shapes (n : TreeNode) (s : list DrawShape) : TreeNode :=
  mkNode (fen n) (move n) (children n) (score n) (depth n) (halfMoves n) s
         (annotation n) (commentHTML n) (commentText n).

Definition set_annotation (n : TreeNode) (a : Annotation) : TreeNode :=
  mkNode (fen n) (move n) (children n) (score n) (depth n) (halfMoves n)
         (shapes n) a (commentHTML n) (commentText n).

Definition set_comment (n : TreeNode) (html text : string) : TreeNode :=
  mkNode (fen n) (move n) (children n) (score n) (depth n) (halfMoves n)
         (shapes n) (annotation n) html text.

Definition set_root (s : TreeState) (r : TreeNode) : TreeState :=
  mkState r (headers s) (position s) (dirty s).

Definition set_headers (s : TreeState) (h : GameHeaders) : TreeState :=
  mkState (root s) h (position s) (dirty s).

Definition set_position (s : TreeState) (p : list Z) : TreeState :=
  mkState (root s) (headers s) p (dirty s).

Definition set_dirty (s : TreeState) (d : bool) : TreeState :=
  mkState (root s) (headers s) (position s) d.

Definition set_orientation (h : GameHeaders) (o : option Orientation) : GameHeaders :=
  mkHeaders (id h) (h_fen h) (event h) (site h) (date h) (time h) (round h)
            (white h) (white_elo h) (black h) (black_elo h) (result h)
            (time_control h) (eco h) (white_material h) (black_material h)
            (start h) o.

Definition set_start (h : GameHeaders) (s : option (list Z)) : GameHeaders :=
  mkHeaders (id h) (h_fen h) (event h) (site h) (date h) (time h) (round h)
            (white h) (white_elo h) (black h) (black_elo h) (result h)
            (time_control h) (eco h) (white_material h) (black_material h)
            s (orientation h).

(** ** References into the tree *)

(** The node a location denotes. *)
Fixpoint nodeAt (n : TreeNode) (loc : list nat) : option TreeNode :=
  match loc with
  | [] => Some n
  | i :: rest =>
      match children n !! i with
      | Some c => nodeAt c rest
      | None => None
      end
  end.

(** In-place mutation [f] of the node at a location. *)
Fixpoint modifyAt (f : TreeNode -> TreeNode) (n : TreeNode) (loc : list nat)
  : TreeNode :=
  match loc with
  | [] => f n
  | i :: rest =>
      match children n !! i with
      | Some c => set_children n (<[i := modifyAt f c rest]> (children n))
      | None => n
      end
  end.

(** ** Path addressing *)

Definition DEFAULT_POSITION : string :=
  "rnbqkbnr/pppppppp/8/8/8/8/PPPPPPPP/RNBQKBNR w KQkq - 0 1".

(** [getNodeAtPath(node, path)]; the result is [None] for [undefined].  A
    negative index passes the range test, reads [undefined] from the
    children, and the recursive call on [undefined] returns it when the
    rest of the path is empty and raises on [node.children] otherwise. *)
Fixpoint getNodeAtPath (node : TreeNode) (path : list Z)
  : outcome (option TreeNode) :=
  match path with
  | [] => Returns (Some node)
  | index :: rest =>
      if bool_decide (Z.of_nat (length (children node)) <= index)
      then Returns (Some node)
      else match Js.index (children node) index with
           | Some child => getNodeAtPath child rest
           | None => match rest with
                     | [] => Returns None
                     | _ :: _ => Throws
                     end
           end
  end.

(** The reference that [getNodeAtPath] returns: the location of the node
    together with the node. *)
Fixpoint getRefAtPath (node : TreeNode) (path : list Z)
  : outcome (option (list nat * TreeNode)) :=
  match path with
  | [] => Returns (Some ([], node))
  | index :: rest =>
      if bool_decide (Z.of_nat (length (children node)) <= index)
      then Returns (Some ([], node))
      else match Js.index (children node) index with
           | Some child =>
               let* r := getRefAtPath child rest in
               Returns (option_map (fun '(loc, n) => (Z.to_nat index :: loc, n)) r)
           | None => match rest with
                     | [] => Returns None
                     | _ :: _ => Throws
                     end
           end
  end.

(** ** Traversal *)

(** Number of nodes of a tree: the bound on the iterations of the
    work-list loop of [treeIterator]. *)
Fixpoint size (n : TreeNode) : nat :=
  S (list_sum (map size (children n))).

(** The frames pushed for the children of the node at [position].  The
    source pushes them from the last child down to the first, so the first
    child ends on top: the stack is kept with its top at the head. *)
Fixpoint child_frames (position : list Z) (i : nat) (cs : list TreeNode)
  : list ListNode :=
  match cs with
  | [] => []
  | c :: rest =>
      mkListNode (position ++ [Z.of_nat i]) c :: child_frames position (S i) rest
  end.

(** The [while (stack.length > 0)] loop; one unit of fuel per iteration. *)
Fixpoint treeIterator_loop (fuel : nat) (stack : list ListNode) : list ListNode :=
  match fuel, stack with
  | S fuel', top :: below =>
      top :: treeIterator_loop fuel'
               (child_frames (ln_position top) 0 (children (ln_node top)) ++ below)
  | _, _ => []
  end.

Definition treeIterator (node : TreeNode) : list ListNode :=
  treeIterator_loop (size node) [mkListNode [] node].

Fixpoint countMainPly (node : TreeNode) : nat :=
  match children node with
  | [] => 0%nat
  | c :: _ => S (countMainPly c)
  end.

(** ** Construction *)

Definition defaultRoot (f : option string) : TreeNode :=
  mkNode (default DEFAULT_POSITION f) None [] None None 0 [] Annotation_None "" "".

Definition defaultHeaders (f : option string) : GameHeaders :=
  mkHeaders 0 (default DEFAULT_POSITION f) "" "" None None None "" None "" None
            Unknown None None None None None None.

Definition defaultTree (f : option string) : TreeState :=
  mkState (defaultRoot f) (defaultHeaders f) [] false.

Definition createNode (f : string) (m : Move) (hm : Z) : TreeNode :=
  mkNode f (Some m) [] None None hm [] Annotation_None "" "".

(** ** Actions *)

Inductive MoveDescriptor :=
| Squares (from to : string) (promotion : option string)
| Algebraic (s : string).

Inductive TreeAction :=
| SAVE
| SET_STATE (payload : TreeState)
| RESET
| SET_HEADERS (payload : GameHeaders)
| SET_ORIENTATION (payload : Orientation)
| SET_START (payload : list Z)
| MAKE_MOVE (payload : MoveDescriptor)
| MAKE_MOVES (payload : list string)
| GO_TO_START
| GO_TO_END
| GO_TO_NEXT
| GO_TO_PREVIOUS
| GO_TO_MOVE (payload : list Z)
| DELETE_MOVE (payload : option (list Z))
| SET_ANNOTATION (payload : Annotation)
| SET_COMMENT (html text : string)
| SET_FEN (payload : string)
| SET_SCORE (payload : Score)
| SET_OUTCOME (payload : Outcome)
| SET_SHAPES (payload : list DrawShape)
| ADD_ANALYSIS (payload : list MoveAnalysis)
| PROMOTE_VARIATION (payload : list Z).

(** Modelled from the spec: [isPrefix] of [./misc] is not among the sources;
    the specification reads it as "the deleted path is a prefix of (or equal
    to) the current path". *)
Definition isPrefix (shorter longer : list Z) : bool :=
  bool_decide (shorter `prefix_of` longer).

(** ** Mutation algorithms and the dispatcher *)

(** What the three calls on the rule-validation collaborator come to:
    [new Chess(fen)] raises, and nothing catches it; or it returns and
    [chess.move(move)] raises, which [makeMove] catches; or both return,
    with the canonical move and the position read by [chess.fen()]. *)
Inductive ChessResult :=
| Refused
| Illegal
| Played (m : Move) (newFen : string).

Section Reducer.

(** [new Chess(fen)] returns ([true]) or raises ([false]). *)
Variable chess_new : string -> bool.

(** On the board built from [fen]: [chess.move(move)] followed by
    [chess.fen()]; [None] when [chess.move] raises. *)
Variable chess_move : string -> MoveDescriptor -> option (Move * string).

Definition chess_result (f : string) (mv : MoveDescriptor) : ChessResult :=
  if chess_new f then
    match chess_move f mv with
    | Some (m, newFen) => Played m newFen
    | None => Illegal
    end
  else Refused.

(** The score-classification collaborator [getAnnotation] of [./score]. *)
Variable getAnnotation : Score -> Score -> string -> Annotation.

(** [n.move?.san === m.san] *)
Definition sameSan (m : Move) (n : TreeNode) : bool :=
  match move n with
  | Some nm => bool_decide (san nm = san m)
  | None => false
  end.

(** [moveNode] is a reference: [moveNode.children.push(...)] edits the tree
    at the location of the node.  The constructor call stands before the
    [try], so its raise leaves [makeMove]; [moveNode.halfMoves + 1] is an
    addition of doubles. *)
Definition makeMove (state : TreeState) (mv : MoveDescriptor) : outcome TreeState :=
  let* r := getRefAtPath (root state) (position state) in
  match r with
  | None => Returns state
  | Some (loc, moveNode) =>
      match chess_result (fen moveNode) mv with
      | Refused => Throws
      | Illegal => Returns state
      | Played m newFen =>
          let i := findIndex (fun _ n => sameSan m n) (children moveNode) in
          if bool_decide (i ≠ -1)
          then Returns (set_position state (position state ++ [i]))
          else
            let newMoveNode :=
              createNode newFen m (Js.add (halfMoves moveNode) 1) in
            let pushed := fun n => set_children n (children n ++ [newMoveNode]) in
            Returns (mkState (modifyAt pushed (root state) loc) (headers state)
                       (position state ++
                          [Z.of_nat (length (children moveNode ++ [newMoveNode])) - 1])
                       (dirty state))
      end
  end.

(** [n === node] compares references: the child [i] of the parent found at
    [ploc] is the node at [ploc ++ [i]], and it is [node] when that is the
    location [nloc] of [node]. *)
Definition deleteMove (state : TreeState) (path : list Z) : outcome TreeState :=
  let* node := getRefAtPath (root state) path in
  match node with
  | None => Returns state
  | Some (nloc, _) =>
      let* parent := getRefAtPath (root state) (slice_init path) in
      match parent with
      | None => Returns state
      | Some (ploc, parentNode) =>
          let index :=
            findIndex (fun i _ => bool_decide (ploc ++ [i] = nloc))
                      (children parentNode) in
          let spliced := fun p => set_children p (splice1 index (children p)).2 in
          let pos := position state in
          let pos' :=
            if isPrefix path pos then slice_init path
            else if isPrefix (slice_init path) pos then
              if bool_decide (length pos = length path)
              then <[(length pos - 1)%nat := 0]> pos
              else pos
            else pos in
          Returns (mkState (modifyAt spliced (root state) ploc) (headers state)
                     pos' (dirty state))
      end
  end.

(** The array passed as [path] is the caller's; writing [path[i] = 0] into
    it reaches the state only through the final [state.position = path]. *)
Definition promoteVariation (state : TreeState) (path : list Z) : outcome TreeState :=
  let '(v, i) :=
    reduceRight (fun acc v i => if bool_decide (v = 0) then acc else (v, i))
                (0, 0) path in
  if bool_decide (i = 0) then Returns state
  else
    let promotablePath := slice_to i path in
    let path' := <[Z.to_nat i := 0]> path in
    if bool_decide (length promotablePath = 0%nat) then Returns state
    else
      let* r := getRefAtPath (root state) promotablePath in
      match r with
      | None => Returns state
      | Some (loc, node) =>
          match (splice1 v (children node)).1 !! 0%nat with
          | None => StoresUndefined
          | Some c =>
              let unshifted :=
                fun n => set_children n (c :: (splice1 v (children n)).2) in
              Returns (mkState (modifyAt unshifted (root state) loc)
                         (headers state) path' (dirty state))
          end
      end.

(** The body of the loop of [addAnalysis] at index [i], entry [a]. *)
Definition analyse (analysis : list MoveAnalysis) (i : nat) (a : MoveAnalysis)
  (cur : TreeNode) : TreeNode :=
  let cur1 := set_score cur (Some (score_of (best a))) in
  let cur2 := if novelty a then set_comment cur1 "Novelty" "Novelty" else cur1 in
  let prevScore :=
    match i with
    | O => mkScore "cp" 0
    | S j => match analysis !! j with
             | Some p => score_of (best p)
             | None => mkScore "cp" 0 (* not reached: [analysis[i]] exists *)
             end
    end in
  let curScore := score_of (best a) in
  let color := if Nat.even i then "w" else "b" in
  set_annotation cur2 (getAnnotation prevScore curScore color).

(** [while (cur !== undefined && i < analysis.length)], following
    [cur = cur.children[0]]. *)
Fixpoint addAnalysis_loop (analysis : list MoveAnalysis) (i : nat)
  (cur : TreeNode) {struct cur} : TreeNode :=
  match analysis !! i with
  | None => cur
  | Some a =>
      let cur' := analyse analysis i a cur in
      match children cur with
      | [] => cur'
      | next :: others =>
          set_children cur' (addAnalysis_loop analysis (S i) next :: others)
      end
  end.

Definition addAnalysis (state : TreeState) (analysis : list MoveAnalysis) : TreeState :=
  match children (root state) with
  | [] => state
  | cur :: others =>
      set_root state
        (set_children (root state) (addAnalysis_loop analysis 0 cur :: others))
  end.

(** [s.orig === shape.orig && s.dest === shape.dest]; reading [shape.orig]
    raises when the batch was empty. *)
Definition sameSquares (shape : option DrawShape) (s : DrawShape) : outcome bool :=
  match shape with
  | None => Throws
  | Some sh =>
      Returns (bool_decide (orig s = orig sh) && bool_decide (dest s = dest sh))
  end.

Definition setShapes (state : TreeState) (batch : list DrawShape) : outcome TreeState :=
  let* r := getRefAtPath (root state) (position state) in
  match r with
  | None => Returns state
  | Some (loc, node) =>
      let shape := Js.index batch 0 in
      let* index := findIndexM (sameSquares shape) (shapes node) in
      if bool_decide (index ≠ -1)
      then
        let spliced := fun n => set_shapes n (splice1 index (shapes n)).2 in
        Returns (set_root state (modifyAt spliced (root state) loc))
      else
        match shape with
        | None => StoresUndefined
        | Some sh =>
            let pushed := fun n => set_shapes n (shapes n ++ [sh]) in
            Returns (set_root state (modifyAt pushed (root state) loc))
        end
  end.

(** The edit of the node at the current path shared by SET_ANNOTATION,
    SET_COMMENT and SET_SCORE. *)
Definition editCurrent (f : TreeNode -> TreeNode) (state : TreeState)
  : outcome TreeState :=
  let* r := getRefAtPath (root state) (position state) in
  match r with
  | None => Returns state
  | Some (loc, _) => Returns (set_root state (modifyAt f (root state) loc))
  end.

Definition toggleAnnotation (a : Annotation) (node : TreeNode) : TreeNode :=
  if decide (annotation node = a) then set_annotation node Annotation_None
  else set_annotation node a.

(** [for (const move of action.payload) makeMove(state, move)] *)
Fixpoint makeMoves (state : TreeState) (moves : list string) : outcome TreeState :=
  match moves with
  | [] => Returns state
  | mv :: rest =>
      let* state' := makeMove state (Algebraic mv) in
      makeMoves state' rest
  end.

(** [treeReducer(state, action)]: the state object as the call leaves it,
    and the value returned ([None] for [undefined]). *)
Definition treeReducer (state : TreeState) (action : TreeAction)
  : outcome (TreeState * option TreeState) :=
  let mutated := fun (r : outcome TreeState) =>
    let* s := r in Returns (s, @None TreeState) in
  match action with
  | SET_STATE payload => Returns (set_dirty state false, Some payload)
  | SAVE => Returns (set_dirty state false, None)
  | RESET => Returns (set_dirty state true, Some (defaultTree None))
  | SET_HEADERS payload =>
      Returns (set_headers (set_dirty state true) payload, None)
  | SET_ORIENTATION payload =>
      let state1 := set_dirty state true in
      Returns (set_headers state1 (set_orientation (headers state1) (Some payload)),
               None)
  | SET_START payload =>
      let state1 := set_dirty state true in
      Returns (set_headers state1 (set_start (headers state1) (Some payload)), None)
  | MAKE_MOVE payload => mutated (makeMove (set_dirty state true) payload)
  | MAKE_MOVES payload => mutated (makeMoves (set_dirty state true) payload)
  | GO_TO_START => Returns (set_position state [], None)
  | GO_TO_END =>
      Returns (set_position state (replicate (countMainPly (root state)) 0), None)
  | GO_TO_NEXT =>
      let* node := getNodeAtPath (root state) (position state) in
      match node with
      | Some n =>
          if bool_decide (0 < length (children n))%nat
          then Returns (set_position state (position state ++ [0]), None)
          else Returns (state, None)
      | None => Returns (state, None)
      end
  | GO_TO_PREVIOUS =>
      if bool_decide (length (position state) ≠ 0%nat)
      then Returns (set_position state (slice_init (position state)), None)
      else Returns (state, None)
  | GO_TO_MOVE payload => Returns (set_position state payload, None)
  | DELETE_MOVE payload =>
      let state1 := set_dirty state true in
      mutated (deleteMove state1 (default (position state1) payload))
  | SET_ANNOTATION payload =>
      mutated (editCurrent (toggleAnnotation payload) (set_dirty state true))
  | SET_COMMENT html text =>
      mutated (editCurrent (fun n => set_comment n html text) (set_dirty state true))
  | SET_FEN payload =>
      let state1 := set_dirty state true in
      Returns (mkState (root (defaultTree (Some payload))) (headers state1) []
                 (dirty state1), None)
  | SET_SCORE payload =>
      mutated (editCurrent (fun n => set_score n (Some payload)) (set_dirty state true))
  | SET_OUTCOME _ => Returns (state, None)
  | ADD_ANALYSIS payload =>
      Returns (addAnalysis (set_dirty state true) payload, None)
  | SET_SHAPES payload => mutated (setShapes (set_dirty state true) payload)
  | PROMOTE_VARIATION payload =>
      mutated (promoteVariation (set_dirty state true) payload)
  end.

(** The state after an action: the returned state when there is one, the
    mutated state object otherwise. *)
Definition dispatch (state : TreeState) (action : TreeAction) : outcome TreeState :=
  let* r := treeReducer state action in
  Returns (default r.1 r.2).

End Reducer.

(** ** Definitions for stating the properties *)

(** Pre-order: the node itself, then each child's subtree in ascending
    child-index order. *)
Fixpoint preorder (position : list Z) (n : TreeNode) {struct n} : list ListNode :=
  mkListNode position n ::
  (fix subtrees (i : nat) (cs : list TreeNode) {struct cs} : list ListNode :=
     match cs with
     | [] => []
     | c :: rest => preorder (position ++ [Z.of_nat i]) c ++ subtrees (S i) rest
     end) 0%nat (children n).

(** The identity of a board marker: its origin/destination pair. *)
Definition squares (s : DrawShape) : string * option string := (orig s, dest s).

(** A node without its subtrees: what an edit of the node itself can change. *)
Definition shallow (n : TreeNode) : TreeNode := set_children n [].

(** The location of the [k]-th node of the mainline, counted from the first
    child of the root. *)
Definition mainline (k : nat) : list nat := replicate (S k) 0%nat.

Definition baseline : Score := mkScore "cp" 0.

(** The evaluation of the ply before ply [k] of an analysis. *)
Definition previousEvaluation (analysis : list MoveAnalysis) (k : nat) : Score :=
  match k with
  | O => baseline
  | S j => default baseline (score_of ∘ best <$> analysis !! j)
  end.

Definition sideToMove (k : nat) : string := if Nat.even k then "w" else "b".

(** The marker list of a node after [setShapes] toggled [m] on it. *)
Definition toggleShape (m : DrawShape) (l : list DrawShape) : list DrawShape :=
  let index := findIndex (fun _ s => bool_decide (squares s = squares m)) l in
  if bool_decide (index ≠ -1) then (splice1 index l).2 else l ++ [m].

(** What the frames of a stack of pending subtrees expand to. *)
Definition expand (frames : list ListNode) : list ListNode :=
  flat_map (λ f, preorder (ln_position f) (ln_node f)) frames.

(** The number of nodes still to be yielded for a stack. *)
Definition pending (frames : list ListNode) : nat :=
  list_sum (map (λ f, size (ln_node f)) frames).

(** A frame whose position is the index chain of its node. *)
Definition addressed (root : TreeNode) (f : ListNode) : Prop :=
  ∃ loc, ln_position f = Z.of_nat <$> loc ∧ nodeAt root loc = Some (ln_node f).

(** The actions whose payload cannot make resolution or the marker search
    raise: paths without negative indices and a marker batch with a first
    element. *)
Definition addressable (action : TreeAction) : Prop :=
  match action with
  | DELETE_MOVE (Some path) | PROMOTE_VARIATION path => Forall (λ i, 0 <= i) path
  | SET_SHAPES batch => batch ≠ []
  | _ => True
  end.

(** The edit of the selected node that an action performs. *)
Definition editOf (action : TreeAction) : option (TreeNode -> TreeNode) :=
  match action with
  | SET_ANNOTATION payload => Some (toggleAnnotation payload)
  | SET_COMMENT html text => Some (fun n => set_comment n html text)
  | SET_SCORE payload => Some (fun n => set_score n (Some payload))
  | _ => None
  end.

(** What an action of the dispatcher may touch. *)
Inductive ActionClass :=
| Replacement   (* returns a state of its own *)
| SaveMarker
| Navigation
| HeaderEdit
| TreeEdit
| Ignored.      (* no case of the switch *)

Definition actionClass (action : TreeAction) : ActionClass :=
  match action with
  | SET_STATE _ | RESET => Replacement
  | SAVE => SaveMarker
  | GO_TO_START | GO_TO_END | GO_TO_NEXT | GO_TO_PREVIOUS | GO_TO_MOVE _ => Navigation
  | SET_HEADERS _ | SET_ORIENTATION _ | SET_START _ => HeaderEdit
  | SET_OUTCOME _ => Ignored
  | _ => TreeEdit
  end.

(** The current path is a chain of valid child indices: it selects a node
    without any fallback. *)
Definition resolvesInFull (state : TreeState) : Prop :=
  ∃ loc, position state = Z.of_nat <$> loc ∧ is_Some (nodeAt (root state) loc).

(** The actions that take the current path from the state, not from their
    payload, and do not delete at a path given to them. *)
Definition keepsSelection (action : TreeAction) : Prop :=
  match action with
  | SET_STATE _ | GO_TO_MOVE _ | DELETE_MOVE (Some _) | PROMOTE_VARIATION _ => False
  | _ => True
  end.

(** The ply index of every node is the ply index of the root plus the depth
    of the node. *)
Definition plyConsistent (r : TreeNode) : Prop :=
  ∀ loc n, nodeAt r loc = Some n → halfMoves n = halfMoves r + Z.of_nat (length loc).

(** Every node of the tree under [r] satisfies [P]. *)
Definition AllNodes (P : TreeNode → Prop) (r : TreeNode) : Prop :=
  ∀ loc n, nodeAt r loc = Some n → P n.

(** The moves an action hands to [makeMove], in order. *)
Definition movesOf (action : TreeAction) : list MoveDescriptor :=
  match action with
  | MAKE_MOVE payload => [payload]
  | MAKE_MOVES payload => Algebraic <$> payload
  | _ => []
  end.

(** The collaborator builds a board from every position string that playing
    moves can hand to it: those stored in the tree, and those it gives out
    itself after a move. *)
Definition loadsPositions (chess_new : string -> bool)
    (chess_move : string -> MoveDescriptor -> option (Move * string))
    (r : TreeNode) : Prop :=
  AllNodes (λ n, chess_new (fen n) = true) r ∧
  ∀ f mv m newFen, chess_move f mv = Some (m, newFen) → chess_new newFen = true.

(** The ply indices of the tree leave room for [k] more plies among the
    integers on which the addition of doubles is exact. *)
Definition pliesWithin (k : Z) (r : TreeNode) : Prop :=
  AllNodes (λ n, - 2 ^ 53 <= halfMoves n ∧ halfMoves n + k <= 2 ^ 53) r.

(** [getGameName(headers)]; a string is truthy when it is not empty. *)
Definition getGameName (h : GameHeaders) : string :=
  if (bool_decide (white h ≠ "") && bool_decide (white h ≠ "?"))
     || (bool_decide (black h ≠ "") && bool_decide (black h ≠ "?"))
  then white h +:+ " - " +:+ black h
  else if bool_decide (event h ≠ "") then event h
  else "Unknown".

(** ** Scenarios of the specification *)

Module Scenario.

Definition played (f s : string) (hm : Z) : TreeNode :=
  createNode f (mkMove s "" "") hm.

Definition A1 : TreeNode := played "after e4 e5" "e5" 2.
Definition A : TreeNode := set_children (played "after e4" "e4" 1) [A1].
Definition B : TreeNode := played "after d4" "d4" 1.

(** root -> A -> A1, root -> B: [root.children = [A, B]]. *)
Definition two_lines : TreeState :=
  mkState (set_children (defaultRoot None) [A; B]) (defaultHeaders None) [] false.

(** root -> A' -> [A1, A2] and A2 -> [X 0, X 1, X 2]. *)
Definition X (k : Z) : TreeNode := played "variation" "x" k.
Definition A2 : TreeNode :=
  set_children (played "after e4 c5" "c5" 2) [X 0; X 1; X 2].
Definition deep : TreeState :=
  mkState (set_children (defaultRoot None)
             [set_children (played "after e4" "e4" 1) [A1; A2]])
          (defaultHeaders None) [] false.

Definition green : DrawShape := mkShape "e2" (Some "e4") (Some "green").
Definition red : DrawShape := mkShape "e2" (Some "e4") (Some "red").

(** The default tree with one marker on the root. *)
Definition marked : TreeState :=
  mkState (set_shapes (defaultRoot None) [green]) (defaultHeaders None) [] false.

(** A collaborator that refuses the empty position string ... *)
Definition toy_new (f : string) : bool := bool_decide (f ≠ "").

(** ... and knows the three moves of the scenarios. *)
Definition toy_chess (f : string) (mv : MoveDescriptor) : option (Move * string) :=
  match mv with
  | Algebraic s =>
      if bool_decide (s ∈ ["e4"; "d4"; "e5"]) then Some (mkMove s "" "", f +:+ " " +:+ s)
      else None
  | Squares _ _ _ => None
  end.

(** A classifier that compares centipawn values. *)
Definition toy_annotation (prev cur : Score) (color : string) : Annotation :=
  if bool_decide (score_value cur < score_value prev) then Annotation_Mistake
  else Annotation_Good.

Definition toy_analysis : list MoveAnalysis :=
  [mkAnalysis (mkBest (mkScore "cp" 30)) false;
   mkAnalysis (mkBest (mkScore "cp" 10)) true].

End Scenario.

(** * Properties *)

(** ** Arrays *)

Section ArrayFacts.
Context {A : Type}.
Implicit Types (arr : list A).

Lemma slice_init_snoc arr x : slice_init (arr ++ [x]) = arr.
Proof.
  unfold slice_init. rewrite length_app. simpl.
  replace (length arr + 1 - 1)%nat with (length arr) by lia.
  by rewrite take_app_length.
Qed.

Lemma slice_init_nil : slice_init (@nil A) = [].
Proof. reflexivity. Qed.

Lemma findIndex_from_none (p : nat -> A -> bool) i arr :
  (∀ j x, p j x = false) → findIndex_from p i arr = -1.
Proof.
  intros Hp. revert i. induction arr as [|x arr IH]; intros i; simpl; [done|].
  by rewrite Hp.
Qed.

(** [splice(-1, 1)] drops the last element, if there is one. *)
Lemma splice1_minus_one arr : (splice1 (-1) arr).2 = slice_init arr.
Proof.
  unfold splice1, splice_start, slice_init. simpl.
  destruct (decide (arr = [])) as [->|Hne]; [done|].
  assert (0 < length arr)%nat by (destruct arr; simpl; [done|lia]).
  replace (Z.to_nat (Z.max (Z.of_nat (length arr) + -1) 0)) with (length arr - 1)%nat by lia.
  destruct (exists_last Hne) as (front & x & ->).
  rewrite length_app. simpl.
  replace (length front + 1 - 1)%nat with (length front) by lia.
  by rewrite take_app_length, delete_middle, app_nil_r.
Qed.

Lemma index_nonneg arr (i : nat) : Js.index arr (Z.of_nat i) = arr !! i.
Proof.
  unfold Js.index. rewrite bool_decide_eq_true_2 by lia. by rewrite Nat2Z.id.
Qed.

Lemma index_negative arr i : i < 0 → Js.index arr i = None.
Proof. intros. unfold Js.index. by rewrite bool_decide_eq_false_2 by lia. Qed.

End ArrayFacts.

(** ** Path addressing and references *)

Section PathFacts.
Implicit Types (node : TreeNode) (path : list Z) (loc : list nat).

Lemma getNodeAtPath_ref node path :
  getNodeAtPath node path =
  let* r := getRefAtPath node path in Returns (option_map snd r).
Proof.
  revert node. induction path as [|index rest IH]; intros node; simpl; [done|].
  case_bool_decide; [done|].
  destruct (Js.index (children node) index) as [child|]; [|by destruct rest].
  rewrite IH. destruct (getRefAtPath child rest) as [[[? ?]|]| |]; done.
Qed.

Lemma getRefAtPath_nodeAt node path loc m :
  getRefAtPath node path = Returns (Some (loc, m)) → nodeAt node loc = Some m.
Proof.
  revert node loc. induction path as [|index rest IH]; intros node loc; simpl.
  - by intros [= <- <-].
  - case_bool_decide; [by intros [= <- <-]|].
    unfold Js.index. case_bool_decide; [|by destruct rest].
    destruct (children node !! Z.to_nat index) as [child|] eqn:Hc; [|by destruct rest].
    destruct (getRefAtPath child rest) as [[[loc' m']|]| |] eqn:Hr; simpl; try done.
    intros [= <- <-]. simpl. rewrite Hc. by apply IH.
Qed.

Lemma getRefAtPath_valid node loc m :
  nodeAt node loc = Some m →
  getRefAtPath node (Z.of_nat <$> loc) = Returns (Some (loc, m)).
Proof.
  revert node. induction loc as [|i rest IH]; intros node.
  - by intros [= ->].
  - rewrite fmap_cons. cbn [getRefAtPath nodeAt].
    destruct (children node !! i) as [child|] eqn:Hc; [|done]. intros Hm.
    apply lookup_lt_Some in Hc as Hlt.
    rewrite bool_decide_eq_false_2 by lia.
    rewrite index_nonneg, Hc, (IH _ Hm). simpl. by rewrite Nat2Z.id.
Qed.

Lemma getNodeAtPath_valid node loc m :
  nodeAt node loc = Some m →
  getNodeAtPath node (Z.of_nat <$> loc) = Returns (Some m).
Proof.
  intros Hm. by rewrite getNodeAtPath_ref, (getRefAtPath_valid _ _ _ Hm).
Qed.

(** The lenient rule on indices that are not negative: resolution returns
    a node, the deepest one reached. *)
Lemma getRefAtPath_nonneg node path :
  Forall (λ i, 0 <= i) path → ∃ loc m, getRefAtPath node path = Returns (Some (loc, m)).
Proof.
  intros Hpath. revert node.
  induction Hpath as [|index rest Hindex _ IH]; intros node; simpl; [by eauto|].
  case_bool_decide; [by eauto|].
  unfold Js.index. rewrite bool_decide_eq_true_2 by done.
  destruct (children node !! Z.to_nat index) as [child|] eqn:Hc.
  - destruct (IH child) as (loc & m & ->). simpl. by eauto.
  - apply lookup_ge_None in Hc. lia.
Qed.

Lemma getNodeAtPath_nonneg node path :
  Forall (λ i, 0 <= i) path → ∃ m, getNodeAtPath node path = Returns (Some m).
Proof.
  intros Hpath. destruct (getRefAtPath_nonneg node path Hpath) as (loc & m & Hr).
  exists m. by rewrite getNodeAtPath_ref, Hr.
Qed.

(** A negative index followed by anything reads [children] of [undefined]. *)
Lemma getNodeAtPath_negative node i j rest :
  i < 0 → getNodeAtPath node (i :: j :: rest) = Throws.
Proof.
  intros Hi. simpl. rewrite bool_decide_eq_false_2 by lia.
  by rewrite index_negative.
Qed.

Lemma getNodeAtPath_negative_last node i :
  i < 0 → getNodeAtPath node [i] = Returns None.
Proof.
  intros Hi. simpl. rewrite bool_decide_eq_false_2 by lia.
  by rewrite index_negative.
Qed.

Lemma modifyAt_ext f g node loc m :
  nodeAt node loc = Some m → f m = g m → modifyAt f node loc = modifyAt g node loc.
Proof.
  revert node. induction loc as [|i rest IH]; intros node; simpl.
  - by intros [= ->].
  - destruct (children node !! i) as [child|]; [|done].
    intros Hm Hfg. by rewrite (IH _ Hm Hfg).
Qed.

Lemma modifyAt_modifyAt f g node loc :
  modifyAt g (modifyAt f node loc) loc = modifyAt (g ∘ f) node loc.
Proof.
  revert node. induction loc as [|i rest IH]; intros node; simpl; [done|].
  destruct (children node !! i) as [child|] eqn:Hc; simpl; [|by rewrite Hc].
  apply lookup_lt_Some in Hc as Hlt.
  rewrite list_lookup_insert_eq by done.
  by rewrite list_insert_insert_eq, IH.
Qed.

Lemma nodeAt_modifyAt f node loc m :
  nodeAt node loc = Some m → nodeAt (modifyAt f node loc) loc = Some (f m).
Proof.
  revert node. induction loc as [|i rest IH]; intros node; simpl.
  - by intros [= ->].
  - destruct (children node !! i) as [child|] eqn:Hc; [|done]. intros Hm. simpl.
    apply lookup_lt_Some in Hc as Hlt.
    rewrite list_lookup_insert_eq by done. by apply IH.
Qed.

(** An edit that keeps the children of a node keeps every reference. *)
Lemma getRefAtPath_modifyAt f node path loc m :
  (∀ n, children (f n) = children n) →
  getRefAtPath node path = Returns (Some (loc, m)) →
  getRefAtPath (modifyAt f node loc) path = Returns (Some (loc, f m)).
Proof.
  intros Hf. revert node loc.
  induction path as [|index rest IH]; intros node loc; simpl.
  - by intros [= <- <-].
  - case_bool_decide as Hlen.
    + intros [= <- <-]. simpl. by rewrite Hf, bool_decide_eq_true_2.
    + unfold Js.index. case_bool_decide as Hpos; [|by destruct rest].
      destruct (children node !! Z.to_nat index) as [child|] eqn:Hc; [|by destruct rest].
      destruct (getRefAtPath child rest) as [[[loc' m']|]| |] eqn:Hr; simpl; try done.
      intros [= <- <-]. simpl. rewrite Hc. simpl.
      rewrite length_insert, bool_decide_eq_false_2 by done.
      apply lookup_lt_Some in Hc as Hlt.
      rewrite list_lookup_insert_eq by done.
      by rewrite (IH _ _ Hr).
Qed.

End PathFacts.

(** ** Traversal *)

Section Traversal.

Lemma nodeAt_app node l1 l2 :
  nodeAt node (l1 ++ l2) = nodeAt node l1 ≫= λ m, nodeAt m l2.
Proof.
  revert node. induction l1 as [|i l1 IH]; intros node; simpl; [done|].
  by destruct (children node !! i).
Qed.

Lemma preorder_unfold position n :
  preorder position n =
  mkListNode position n :: expand (child_frames position 0 (children n)).
Proof.
  destruct n as [f mv cs sc d hm sh an ch ct]. simpl. f_equal.
  generalize 0%nat. induction cs as [|c cs IH]; intros i; simpl; [done|].
  by rewrite IH.
Qed.

Lemma pending_child_frames position i cs :
  pending (child_frames position i cs) = list_sum (map size cs).
Proof.
  revert i. induction cs as [|c cs IH]; intros i; simpl; [done|].
  unfold pending in *. simpl. by rewrite IH.
Qed.

Lemma size_unfold n : size n = S (list_sum (map size (children n))).
Proof. by destruct n. Qed.

(** With one unit of fuel per pending node the loop stops on the empty
    stack, and what it yields is the pre-order of the pending subtrees. *)
Lemma treeIterator_loop_expand fuel stack :
  (pending stack ≤ fuel)%nat → treeIterator_loop fuel stack = expand stack.
Proof.
  revert stack. induction fuel as [|fuel IH]; intros stack Hfuel.
  - destruct stack as [|top below]; [done|].
    unfold pending in Hfuel. simpl in Hfuel. rewrite size_unfold in Hfuel. lia.
  - destruct stack as [|[position n] below]; [done|].
    cbn [treeIterator_loop ln_position ln_node]. rewrite IH.
    + unfold expand. rewrite flat_map_app. cbn [flat_map ln_position ln_node].
      by rewrite preorder_unfold.
    + unfold pending in *. rewrite map_app, list_sum_app.
      fold (pending (child_frames position 0 (children n))).
      rewrite pending_child_frames. simpl in Hfuel.
      rewrite size_unfold in Hfuel. lia.
Qed.

Lemma treeIterator_preorder root : treeIterator root = preorder [] root.
Proof.
  unfold treeIterator. rewrite treeIterator_loop_expand.
  - unfold expand. simpl. by rewrite app_nil_r.
  - unfold pending. simpl. lia.
Qed.

Lemma child_frames_addressed root loc n i cs :
  nodeAt root loc = Some n →
  (∀ j c, cs !! j = Some c → children n !! (i + j)%nat = Some c) →
  Forall (addressed root) (child_frames (Z.of_nat <$> loc) i cs).
Proof.
  intros Hn. revert i. induction cs as [|c cs IH]; intros i Hcs; simpl.
  - constructor.
  - constructor.
    + exists (loc ++ [i]). simpl. split; [by rewrite fmap_app|].
      rewrite nodeAt_app, Hn. simpl.
      rewrite <- (Nat.add_0_r i). by rewrite (Hcs 0%nat c).
    + apply IH. intros j c' Hj.
      replace (S i + j)%nat with (i + S j)%nat by lia. by apply Hcs.
Qed.

Lemma treeIterator_loop_addressed root fuel stack :
  Forall (addressed root) stack →
  Forall (addressed root) (treeIterator_loop fuel stack).
Proof.
  revert stack. induction fuel as [|fuel IH]; intros stack Hstack; [constructor|].
  destruct Hstack as [|top below Htop Hbelow]; [constructor|].
  cbn [treeIterator_loop]. constructor; [done|].
  apply IH, Forall_app. split; [|done].
  destruct Htop as (loc & -> & Hn).
  by apply (child_frames_addressed root loc (ln_node top)).
Qed.

(** C6: the traversal yields the whole pre-order of the tree, and for every
    pair it yields, resolving the yielded path from the root returns the
    yielded node, and returns it as the node at exactly that index chain:
    no step of the resolution falls back to an ancestor. *)
Theorem traversal_round_trip root :
  treeIterator root = preorder [] root
  ∧ Forall (λ f,
        getNodeAtPath root (ln_position f) = Returns (Some (ln_node f))
        ∧ getRefAtPath root (ln_position f) =
            Returns (Some (Z.to_nat <$> ln_position f, ln_node f)))
      (treeIterator root).
Proof.
  split; [apply treeIterator_preorder|].
  eapply Forall_impl.
  - apply (treeIterator_loop_addressed root). constructor; [|constructor].
    by exists [].
  - intros f (loc & Hpos & Hn). rewrite Hpos. split.
    + by apply getNodeAtPath_valid.
    + rewrite (getRefAtPath_valid _ _ _ Hn). do 3 f_equal.
      clear. induction loc as [|i loc IH]; [done|].
      rewrite !fmap_cons, Nat2Z.id. by f_equal.
Qed.

End Traversal.

(** ** Variation promotion *)

Section Promotion.
Variable chess_new : string -> bool.
Variable chess_move : string -> MoveDescriptor -> option (Move * string).
Variable getAnnotation : Score -> Score -> string -> Annotation.

(** The right-to-left fold keeps the nonzero index it meets last, the one
    closest to the root; a path that starts with a nonzero index is
    therefore taken for a path without any, and nothing is promoted. *)
Lemma promoteVariation_nonzero_head state v rest :
  v ≠ 0 → promoteVariation state (v :: rest) = Returns state.
Proof.
  intros Hv. unfold promoteVariation, reduceRight. simpl.
  by rewrite bool_decide_eq_false_2.
Qed.

(** On the path [[0, 1, 2]] the fold ends on index 1, the nonzero index
    closest to the root: the second child of the node at [[0]] is moved to
    the front and the current path becomes [[0, 0, 2]]; the deepest nonzero
    index, at position 2, is left alone. *)
Example promote_shallowest_nonzero :
  ∃ state',
    promoteVariation Scenario.deep [0; 1; 2] = Returns state'
    ∧ position state' = [0; 0; 2]
    ∧ nodeAt (root state') [0%nat; 0%nat] = Some Scenario.A2
    ∧ nodeAt (root state') [0%nat; 1%nat] = Some Scenario.A1.
Proof. by eexists. Qed.

(** C1: scenario 3 of the specification on the code.  With
    [root.children = [A, B]], PROMOTE_VARIATION at path [[1]] leaves the
    children in the order [[A, B]] and the current path empty; only the
    dirty flag is set. *)
Theorem promote_second_child_ignored :
  dispatch chess_new chess_move getAnnotation Scenario.two_lines (PROMOTE_VARIATION [1]) =
    Returns (set_dirty Scenario.two_lines true)
  ∧ children (root (set_dirty Scenario.two_lines true)) = [Scenario.A; Scenario.B]
  ∧ position (set_dirty Scenario.two_lines true) = [].
Proof.
  split; [|done]. unfold dispatch, treeReducer.
  by rewrite promoteVariation_nonzero_head.
Qed.

End Promotion.

(** ** Deletion *)

Lemma slice_init_cons {A} (x : A) (arr : list A) :
  arr ≠ [] → slice_init (x :: arr) = x :: slice_init arr.
Proof.
  intros Hne. unfold slice_init. destruct arr as [|y arr]; [done|]. simpl.
  by rewrite Nat.sub_0_r.
Qed.

(** A path on which resolution stopped early resolves to the same node
    without its last index: the parent that [deleteMove] looks up is then
    the node itself. *)
Lemma getRefAtPath_unresolved node path loc n :
  getRefAtPath node path = Returns (Some (loc, n)) →
  (length loc < length path)%nat →
  getRefAtPath node (slice_init path) = Returns (Some (loc, n)).
Proof.
  revert node loc. induction path as [|index rest IH]; intros node loc.
  - simpl. lia.
  - destruct (decide (rest = [])) as [->|Hrest].
    + simpl. case_bool_decide; [by intros [= <- <-]|].
      destruct (Js.index (children node) index); [|done].
      simpl. intros [= <- <-]. simpl. lia.
    + rewrite slice_init_cons by done. simpl.
      case_bool_decide; [done|].
      destruct (Js.index (children node) index) as [child|]; [|by destruct rest].
      destruct (getRefAtPath child rest) as [[[loc' n']|]| |] eqn:Hr; simpl; try done.
      intros [= <- <-] Hlen. simpl in Hlen.
      rewrite (IH child loc' Hr) by lia. done.
Qed.

(** Deletion at a path that does not resolve in full: the node at which
    resolution stopped loses its last child. *)
Lemma deleteMove_unresolved state path loc n :
  getRefAtPath (root state) path = Returns (Some (loc, n)) →
  (length loc < length path)%nat →
  ∃ state',
    deleteMove state path = Returns state'
    ∧ root state' =
        modifyAt (λ p, set_children p (slice_init (children p))) (root state) loc.
Proof.
  intros Hr Hlen. unfold deleteMove.
  rewrite Hr, (getRefAtPath_unresolved _ _ _ _ Hr Hlen). simpl.
  eexists. split; [done|]. simpl. unfold findIndex.
  rewrite findIndex_from_none.
  - apply getRefAtPath_nodeAt in Hr.
    apply (modifyAt_ext _ _ _ _ n Hr). f_equal. apply splice1_minus_one.
  - intros j _. apply bool_decide_eq_false_2. intros Heq.
    apply (f_equal length) in Heq. rewrite length_app in Heq. simpl in Heq. lia.
Qed.

Section Deletion.
Variable chess_new : string -> bool.
Variable chess_move : string -> MoveDescriptor -> option (Move * string).
Variable getAnnotation : Score -> Score -> string -> Annotation.

(** C3: DELETE_MOVE at the path [[5]], which is out of range at the root,
    on the tree [root.children = [A, B]].  Resolution falls back to the
    root for the node and for its parent alike, the index search answers
    [-1], and [splice(-1, 1)] removes the last child [B]. *)
Theorem delete_unresolved_path_removes_last_child :
  dispatch chess_new chess_move getAnnotation Scenario.two_lines (DELETE_MOVE (Some [5])) =
    Returns (mkState (set_children (defaultRoot None) [Scenario.A])
                     (defaultHeaders None) [] true).
Proof. reflexivity. Qed.

(** C10: DELETE_MOVE with the empty path, given as the payload or taken
    from an empty current path, removes the last child of the root (none
    when the root has no child) and sets the current path to the empty
    path. *)
Theorem delete_empty_path state payload :
  payload = Some [] ∨ (payload = None ∧ position state = []) →
  ∃ state',
    dispatch chess_new chess_move getAnnotation state (DELETE_MOVE payload) = Returns state'
    ∧ position state' = []
    ∧ headers state' = headers state
    ∧ shallow (root state') = shallow (root state)
    ∧ (children (root state) = [] → children (root state') = [])
    ∧ (∀ front last, children (root state) = front ++ [last] →
         children (root state') = front).
Proof.
  intros Hpath.
  assert (default (position state) payload = []) as Hp.
  { destruct Hpath as [->|[-> ->]]; done. }
  exists (mkState (set_children (root state) (slice_init (children (root state))))
            (headers state) [] true).
  split.
  - unfold dispatch, treeReducer. simpl. rewrite Hp.
    unfold deleteMove, findIndex. simpl.
    rewrite findIndex_from_none by done.
    by rewrite <- (splice1_minus_one (children (root state))).
  - simpl. do 3 (split; [done|]). split.
    + by intros ->.
    + intros front last ->. apply slice_init_snoc.
Qed.

End Deletion.

(** No payload and an empty current path on [root.children = [A, B]]. *)
Lemma delete_empty_path_witness :
  (@None (list Z) = Some [] ∨ (@None (list Z) = None ∧ position Scenario.two_lines = []))
  ∧ ∃ state',
      dispatch Scenario.toy_new Scenario.toy_chess Scenario.toy_annotation Scenario.two_lines
               (DELETE_MOVE None) = Returns state'
      ∧ position state' = []
      ∧ headers state' = headers Scenario.two_lines
      ∧ shallow (root state') = shallow (root Scenario.two_lines)
      ∧ (children (root Scenario.two_lines) = [] → children (root state') = [])
      ∧ (∀ front last, children (root Scenario.two_lines) = front ++ [last] →
           children (root state') = front).
Proof.
  split; [right; split; reflexivity|].
  apply (delete_empty_path Scenario.toy_new Scenario.toy_chess Scenario.toy_annotation
           Scenario.two_lines None).
  right. split; reflexivity.
Defined.

Lemma insert_last_slice_init {A} (arr : list A) (x : A) :
  arr ≠ [] → <[(length arr - 1)%nat := x]> arr = slice_init arr ++ [x].
Proof.
  intros Hne. destruct (exists_last Hne) as (front & y & ->).
  rewrite slice_init_snoc, length_app. simpl.
  replace (length front + 1 - 1)%nat with (length front + 0)%nat by lia.
  by rewrite insert_app_r.
Qed.

Section DeletionPath.

(** C5: the current path after a deletion at [path] that went through
    (both the node and its parent were resolved).  If [path] is a prefix of
    the current path, the current path becomes [path] without its last
    index; otherwise, if the parent of [path] is a prefix of the current
    path and both paths have the same length, the trailing index of the
    current path is reset to 0; otherwise the current path is unchanged. *)
Theorem deleteMove_current_path state path n p :
  getNodeAtPath (root state) path = Returns (Some n) →
  getNodeAtPath (root state) (slice_init path) = Returns (Some p) →
  ∃ state',
    deleteMove state path = Returns state'
    ∧ (path `prefix_of` position state → position state' = slice_init path)
    ∧ (¬ path `prefix_of` position state →
       slice_init path `prefix_of` position state →
       length (position state) = length path →
       position state' = slice_init (position state) ++ [0])
    ∧ (¬ path `prefix_of` position state →
       ¬ (slice_init path `prefix_of` position state
          ∧ length (position state) = length path) →
       position state' = position state).
Proof.
  rewrite !getNodeAtPath_ref. intros Hn Hp. unfold deleteMove.
  destruct (getRefAtPath (root state) path) as [[[nloc n']|]| |]; try done.
  destruct (getRefAtPath (root state) (slice_init path)) as [[[ploc p']|]| |];
    try done.
  simpl. eexists. split; [reflexivity|]. simpl. unfold isPrefix.
  split; [|split].
  - intros Hpre. by rewrite bool_decide_eq_true_2.
  - intros Hnpre Hpar Hlen.
    rewrite bool_decide_eq_false_2, !bool_decide_eq_true_2 by done.
    apply insert_last_slice_init. intros Hnil. apply Hnpre.
    rewrite Hnil in Hlen. symmetry in Hlen. apply nil_length_inv in Hlen.
    rewrite Hlen. apply prefix_nil.
  - intros Hnpre Hnot. rewrite bool_decide_eq_false_2 by done.
    case_bool_decide; [|done]. case_bool_decide; [|done]. by destruct Hnot.
Qed.

End DeletionPath.

(** Scenario 4: root -> A -> A1 and root -> B with the current path
    [[0, 0]]; deleting at [[0]] moves the current path to the root. *)
Lemma deleteMove_current_path_witness :
  getNodeAtPath (root (set_position Scenario.two_lines [0; 0])) [0] =
    Returns (Some Scenario.A)
  ∧ getNodeAtPath (root (set_position Scenario.two_lines [0; 0])) (slice_init [0]) =
    Returns (Some (root Scenario.two_lines))
  ∧ ∃ state',
      deleteMove (set_position Scenario.two_lines [0; 0]) [0] = Returns state'
      ∧ ([0] `prefix_of` [0; 0] → position state' = [])
      ∧ (¬ [0] `prefix_of` [0; 0] → [] `prefix_of` [0; 0] →
         2%nat = 1%nat → position state' = [0] ++ [0])
      ∧ (¬ [0] `prefix_of` [0; 0] →
         ¬ ([] `prefix_of` [0; 0] ∧ 2%nat = 1%nat) → position state' = [0; 0]).
Proof.
  split; [reflexivity|]. split; [reflexivity|].
  apply (deleteMove_current_path (set_position Scenario.two_lines [0; 0]) [0]
           Scenario.A (root Scenario.two_lines)); reflexivity.
Defined.

Section Dispatcher.
Variable chess_new : string -> bool.
Variable chess_move : string -> MoveDescriptor -> option (Move * string).
Variable getAnnotation : Score -> Score -> string -> Annotation.

(** C2, as the code has it: a move that the rule-validation collaborator
    rejects as illegal on the position of the selected node, a position from
    which it builds its board, leaves the root, the current path and the
    headers as they were and raises nothing, and the dirty flag is set. *)
Theorem illegal_move_only_sets_dirty state mv n :
  getNodeAtPath (root state) (position state) = Returns (Some n) →
  chess_result chess_new chess_move (fen n) mv = Illegal →
  treeReducer chess_new chess_move getAnnotation state (MAKE_MOVE mv) =
    Returns (mkState (root state) (headers state) (position state) true, None).
Proof.
  rewrite getNodeAtPath_ref. intros Hn Hrej. unfold treeReducer, makeMove. simpl.
  destruct (getRefAtPath (root state) (position state)) as [[[loc n']|]| |];
    try done.
  simpl in Hn. injection Hn as ->. simpl. by rewrite Hrej.
Qed.

Lemma dispatch_SAVE state :
  ∃ state', dispatch chess_new chess_move getAnnotation state SAVE = Returns state'
            ∧ dirty state' = false.
Proof. by eexists. Qed.

Lemma dispatch_RESET state :
  ∃ state', dispatch chess_new chess_move getAnnotation state RESET = Returns state'
            ∧ dirty state' = false.
Proof. by eexists. Qed.

Lemma dispatch_SET_STATE state payload :
  dispatch chess_new chess_move getAnnotation state (SET_STATE payload) = Returns payload.
Proof. reflexivity. Qed.

(** C9 on the code: SET_STATE clears the flag of the state object it is
    about to discard and returns the payload untouched, so replacing the
    state by a payload whose flag is set yields a state whose flag is set. *)
Theorem set_state_keeps_payload_flag state :
  ∃ state',
    dispatch chess_new chess_move getAnnotation state
             (SET_STATE (set_dirty (defaultTree None) true)) = Returns state'
    ∧ dirty state' = true.
Proof. by eexists. Qed.

(** C4 on the code: resolution raises on a negative index that is not the
    last one, any action that resolves such a current path raises with it,
    and SET_SHAPES with an empty batch raises on a node that has a marker. *)
Theorem dispatch_raises :
  getNodeAtPath (defaultRoot None) [-1; 0] = Throws
  ∧ getNodeAtPath (defaultRoot None) [-1] = Returns None
  ∧ (let* s := dispatch chess_new chess_move getAnnotation (defaultTree None)
                        (GO_TO_MOVE [-1; 0]) in
     dispatch chess_new chess_move getAnnotation s GO_TO_NEXT) = Throws
  ∧ dispatch chess_new chess_move getAnnotation Scenario.marked (SET_SHAPES []) = Throws.
Proof. repeat split. Qed.

End Dispatcher.

Lemma illegal_move_only_sets_dirty_witness :
  getNodeAtPath (root (defaultTree None)) (position (defaultTree None)) =
    Returns (Some (defaultRoot None))
  ∧ chess_result Scenario.toy_new Scenario.toy_chess
      (fen (defaultRoot None)) (Algebraic "Ke9") = Illegal
  ∧ treeReducer Scenario.toy_new Scenario.toy_chess Scenario.toy_annotation (defaultTree None)
      (MAKE_MOVE (Algebraic "Ke9")) =
    Returns (mkState (defaultRoot None) (defaultHeaders None) [] true, None).
Proof.
  split; [reflexivity|]. split; [reflexivity|].
  apply (illegal_move_only_sets_dirty Scenario.toy_new Scenario.toy_chess Scenario.toy_annotation
           (defaultTree None) (Algebraic "Ke9") (defaultRoot None)); reflexivity.
Defined.

(** C2 as stated fails: on the default tree, whose flag is clear, a
    rejected move yields a state that differs from the one dispatched on. *)
Lemma illegal_move_not_a_noop :
  getNodeAtPath (root (defaultTree None)) (position (defaultTree None)) =
    Returns (Some (defaultRoot None))
  ∧ chess_result Scenario.toy_new Scenario.toy_chess
      (fen (defaultRoot None)) (Algebraic "Ke9") = Illegal
  ∧ dispatch Scenario.toy_new Scenario.toy_chess Scenario.toy_annotation (defaultTree None)
      (MAKE_MOVE (Algebraic "Ke9")) ≠ Returns (defaultTree None).
Proof. repeat split. discriminate. Qed.

(** ** Board markers *)

Section Markers.
Variable chess_new : string -> bool.
Variable chess_move : string -> MoveDescriptor -> option (Move * string).
Variable getAnnotation : Score -> Score -> string -> Annotation.
Implicit Types (m s : DrawShape) (l : list DrawShape).

Lemma sameSquares_squares m s :
  sameSquares (Some m) s = Returns (bool_decide (squares s = squares m)).
Proof.
  unfold sameSquares, squares. f_equal.
  destruct (decide (orig s = orig m)) as [Ho|Ho], (decide (dest s = dest m)) as [Hd|Hd].
  - rewrite !bool_decide_eq_true_2; [done|congruence|done|done].
  - rewrite (bool_decide_eq_false_2 (dest s = dest m)) by done.
    rewrite andb_false_r. symmetry. apply bool_decide_eq_false_2. congruence.
  - rewrite (bool_decide_eq_false_2 (orig s = orig m)) by done.
    symmetry. apply bool_decide_eq_false_2. congruence.
  - rewrite (bool_decide_eq_false_2 (orig s = orig m)) by done.
    symmetry. apply bool_decide_eq_false_2. congruence.
Qed.

Lemma findIndexM_squares m l i :
  findIndexM_from (sameSquares (Some m)) i l =
  Returns (findIndex_from (fun _ s => bool_decide (squares s = squares m)) i l).
Proof.
  revert i. induction l as [|s l IH]; intros i; [done|].
  cbn [findIndexM_from findIndex_from]. rewrite sameSquares_squares. simpl.
  by case_bool_decide.
Qed.

Lemma findIndex_from_bounds {A} (p : nat -> A -> bool) i (arr : list A) :
  findIndex_from p i arr = -1
  ∨ Z.of_nat i <= findIndex_from p i arr < Z.of_nat (i + length arr).
Proof.
  revert i. induction arr as [|x arr IH]; intros i; simpl; [by left|].
  destruct (p i x); [right; lia|]. destruct (IH (S i)) as [->|?]; [by left|right; lia].
Qed.

Lemma findIndex_squares_absent m l i :
  (∀ s, s ∈ l → squares s ≠ squares m) →
  findIndex_from (fun _ s => bool_decide (squares s = squares m)) i l = -1.
Proof.
  revert i. induction l as [|s l IH]; intros i Hl; simpl; [done|].
  rewrite bool_decide_eq_false_2 by (apply Hl; left).
  apply IH. intros s' Hs'. apply Hl. by right.
Qed.

Lemma findIndex_squares_first m pre old post i :
  (∀ s, s ∈ pre → squares s ≠ squares m) →
  squares old = squares m →
  findIndex_from (fun _ s => bool_decide (squares s = squares m)) i
                 (pre ++ old :: post) = Z.of_nat (i + length pre).
Proof.
  intros Hpre Hold. revert i Hpre.
  induction pre as [|s pre IH]; intros i Hpre; simpl.
  - rewrite bool_decide_eq_true_2 by done. f_equal. lia.
  - rewrite bool_decide_eq_false_2 by (apply Hpre; left).
    rewrite IH; [f_equal; lia|]. intros s' Hs'. apply Hpre. by right.
Qed.

Lemma splice1_at {A} (arr : list A) (i : nat) :
  (i < length arr)%nat → (splice1 (Z.of_nat i) arr).2 = delete i arr.
Proof.
  intros Hi. unfold splice1, splice_start. simpl.
  rewrite bool_decide_eq_false_2 by lia. f_equal. lia.
Qed.

Lemma toggleShape_absent m l :
  (∀ s, s ∈ l → squares s ≠ squares m) → toggleShape m l = l ++ [m].
Proof.
  intros Hl. unfold toggleShape, findIndex.
  by rewrite findIndex_squares_absent.
Qed.

Lemma toggleShape_first m pre old post :
  (∀ s, s ∈ pre → squares s ≠ squares m) →
  squares old = squares m →
  toggleShape m (pre ++ old :: post) = pre ++ post.
Proof.
  intros Hpre Hold. unfold toggleShape, findIndex.
  rewrite findIndex_squares_first by done.
  change (0 + length pre)%nat with (length pre).
  rewrite bool_decide_eq_true_2 by lia.
  rewrite splice1_at by (rewrite length_app; simpl; lia).
  apply delete_middle.
Qed.

(** A marker that was not on the node is appended and then removed. *)
Lemma toggleShape_twice_absent m l :
  (∀ s, s ∈ l → squares s ≠ squares m) → toggleShape m (toggleShape m l) = l.
Proof.
  intros Hl. rewrite (toggleShape_absent m l Hl).
  rewrite (toggleShape_first m l m []) by done. apply app_nil_r.
Qed.

(** A marker whose squares are on the node replaces the one found there. *)
Lemma toggleShape_twice_present m pre old post :
  NoDup (squares <$> (pre ++ old :: post)) →
  squares old = squares m →
  toggleShape m (toggleShape m (pre ++ old :: post)) = pre ++ post ++ [m].
Proof.
  intros Hnd Hold.
  rewrite fmap_app, fmap_cons in Hnd.
  apply NoDup_app in Hnd as (_ & Hpre & Hpost). apply NoDup_cons in Hpost as [Hpost _].
  assert (∀ s, s ∈ pre → squares s ≠ squares m) as Hpre'.
  { intros s Hs Heq. apply (Hpre (squares s)); [by apply list_elem_of_fmap_2|].
    rewrite Heq, <- Hold. left. }
  assert (∀ s, s ∈ post → squares s ≠ squares m) as Hpost'.
  { intros s Hs Heq. apply Hpost. rewrite Hold, <- Heq.
    by apply list_elem_of_fmap_2. }
  rewrite (toggleShape_first m pre old post) by done.
  rewrite toggleShape_absent; [by rewrite <- app_assoc|].
  intros s [Hs|Hs]%elem_of_app; auto.
Qed.

(** Toggling keeps the markers of a node deduplicated by pair. *)
Lemma toggleShape_NoDup m l :
  NoDup (squares <$> l) → NoDup (squares <$> toggleShape m l).
Proof.
  intros Hnd.
  destruct (decide (Exists (λ s, squares s = squares m) l)) as [Hex|Hno].
  - apply Exists_exists in Hex as (old & Hin & Hold).
    apply list_elem_of_split in Hin as (pre & post & ->).
    assert (∀ s, s ∈ pre → squares s ≠ squares m) as Hpre.
    { rewrite fmap_app, fmap_cons in Hnd.
      apply NoDup_app in Hnd as (_ & Hpre & _).
      intros s Hs Heq. apply (Hpre (squares s)); [by apply list_elem_of_fmap_2|].
      rewrite Heq, <- Hold. left. }
    rewrite (toggleShape_first m pre old post Hpre Hold).
    rewrite fmap_app, fmap_cons in Hnd. rewrite fmap_app.
    apply NoDup_app in Hnd as (Hnd1 & Hdisj & Hnd2).
    apply NoDup_cons in Hnd2 as [_ Hnd2].
    apply NoDup_app. split; [done|]. split; [|done].
    intros x Hx Hpost. apply (Hdisj x Hx). by right.
  - assert (∀ s, s ∈ l → squares s ≠ squares m) as Habs.
    { intros s Hs Heq. apply Hno, Exists_exists. by exists s. }
    rewrite (toggleShape_absent m l Habs), fmap_app.
    apply NoDup_app. split; [done|]. split; [|apply NoDup_singleton].
    intros x Hx Hm. apply list_elem_of_singleton in Hm as ->.
    apply list_elem_of_fmap in Hx as (s & Heq & Hs). by apply (Habs s).
Qed.

Lemma setShapes_toggle state loc node m rest :
  getRefAtPath (root state) (position state) = Returns (Some (loc, node)) →
  setShapes state (m :: rest) =
  Returns (set_root state
             (modifyAt (fun n => set_shapes n (toggleShape m (shapes node)))
                       (root state) loc)).
Proof.
  intros Href. unfold setShapes. rewrite Href. cbn [Js.bind].
  change (Js.index (m :: rest) 0) with (Some m).
  unfold findIndexM. rewrite findIndexM_squares. cbn [Js.bind].
  apply getRefAtPath_nodeAt in Href. unfold toggleShape, findIndex.
  case_bool_decide; do 2 f_equal; by apply (modifyAt_ext _ _ _ _ node).
Qed.

(** C7, as the code has it.  On a node whose markers are deduplicated by
    origin/destination pair, two successive SET_SHAPES with the marker [m]
    first in the batch change nothing but the marker list of the selected
    node (and the dirty flag).  A marker whose pair was not on the node is
    appended and removed again, which restores the list.  A marker whose
    pair was on the node removes the marker found there and is then
    appended itself, so the pairs on the node are the original ones while
    the marker that carries the pair is [m], placed last. *)
Theorem toggle_marker_twice state loc node m rest1 rest2 :
  getRefAtPath (root state) (position state) = Returns (Some (loc, node)) →
  NoDup (squares <$> shapes node) →
  ∃ final,
    (let* state1 := dispatch chess_new chess_move getAnnotation state (SET_SHAPES (m :: rest1)) in
     dispatch chess_new chess_move getAnnotation state1 (SET_SHAPES (m :: rest2))) =
    Returns (mkState (modifyAt (fun n => set_shapes n final) (root state) loc)
                     (headers state) (position state) true)
    ∧ ((∀ s, s ∈ shapes node → squares s ≠ squares m) → final = shapes node)
    ∧ (∀ pre old post,
         shapes node = pre ++ old :: post → squares old = squares m →
         final = pre ++ post ++ [m])
    ∧ squares <$> final ≡ₚ squares <$> shapes node.
Proof.
  intros Href Hnd.
  exists (toggleShape m (toggleShape m (shapes node))). split; [|split; [|split]].
  - unfold dispatch, treeReducer.
    rewrite (setShapes_toggle (set_dirty state true) loc node m rest1 Href). simpl.
    set (g1 := fun n => set_shapes n (toggleShape m (shapes node))).
    assert (getRefAtPath (modifyAt g1 (root state) loc) (position state) =
            Returns (Some (loc, g1 node))) as Href1.
    { by apply getRefAtPath_modifyAt. }
    rewrite (setShapes_toggle _ loc (g1 node) m rest2) by done. simpl.
    by rewrite modifyAt_modifyAt.
  - apply toggleShape_twice_absent.
  - intros pre old post Hsplit Hold. rewrite Hsplit in Hnd |- *.
    by apply toggleShape_twice_present.
  - destruct (decide (Exists (λ s, squares s = squares m) (shapes node))) as [Hex|Hno].
    + apply Exists_exists in Hex as (old & Hin & Hold).
      apply list_elem_of_split in Hin as (pre & post & Hsplit).
      rewrite Hsplit in Hnd |- *.
      rewrite toggleShape_twice_present by done.
      rewrite !fmap_app, !fmap_cons, <- Hold. simpl.
      apply Permutation_app_head. symmetry. apply Permutation_cons_append.
    + rewrite toggleShape_twice_absent; [done|].
      intros s Hs Heq. apply Hno, Exists_exists. by exists s.
Qed.

End Markers.

(** Scenario 5: toggling e2-e4 twice on the root of the default tree. *)
Lemma toggle_marker_twice_witness :
  getRefAtPath (root (defaultTree None)) (position (defaultTree None)) =
    Returns (Some ([], defaultRoot None))
  ∧ NoDup (squares <$> shapes (defaultRoot None))
  ∧ ∃ final,
      (let* state1 := dispatch Scenario.toy_new Scenario.toy_chess Scenario.toy_annotation
                        (defaultTree None) (SET_SHAPES [Scenario.green]) in
       dispatch Scenario.toy_new Scenario.toy_chess Scenario.toy_annotation state1
                (SET_SHAPES [Scenario.green])) =
      Returns (mkState (modifyAt (fun n => set_shapes n final)
                                 (root (defaultTree None)) [])
                       (headers (defaultTree None)) (position (defaultTree None)) true)
      ∧ ((∀ s, s ∈ shapes (defaultRoot None) → squares s ≠ squares Scenario.green) →
         final = shapes (defaultRoot None))
      ∧ (∀ pre old post,
           shapes (defaultRoot None) = pre ++ old :: post →
           squares old = squares Scenario.green → final = pre ++ post ++ [Scenario.green])
      ∧ squares <$> final ≡ₚ squares <$> shapes (defaultRoot None).
Proof.
  split; [reflexivity|]. split; [constructor|].
  apply (toggle_marker_twice Scenario.toy_new Scenario.toy_chess Scenario.toy_annotation
           (defaultTree None) [] (defaultRoot None) Scenario.green [] []);
    [reflexivity|constructor].
Defined.

(** C7 as stated fails: the root carries the green marker e2-e4; toggling
    the red marker e2-e4 twice leaves the red one in its place. *)
Lemma toggle_twice_replaces_marker :
  ∃ state2,
    (let* state1 := dispatch Scenario.toy_new Scenario.toy_chess Scenario.toy_annotation
                      Scenario.marked (SET_SHAPES [Scenario.red]) in
     dispatch Scenario.toy_new Scenario.toy_chess Scenario.toy_annotation state1
              (SET_SHAPES [Scenario.red])) = Returns state2
    ∧ shapes (root Scenario.marked) = [Scenario.green]
    ∧ shapes (root state2) = [Scenario.red]
    ∧ ¬ (∀ s, s ∈ shapes (root state2) ↔ s ∈ shapes (root Scenario.marked)).
Proof.
  eexists. split; [reflexivity|]. split; [reflexivity|]. split; [reflexivity|].
  simpl. intros Hsame. specialize (Hsame Scenario.red) as [Hin _].
  specialize (Hin ltac:(left)). apply list_elem_of_singleton in Hin. discriminate.
Qed.

(** ** Analysis *)

Section Analysis.
Variable chess_new : string -> bool.
Variable chess_move : string -> MoveDescriptor -> option (Move * string).
Variable getAnnotation : Score -> Score -> string -> Annotation.
Implicit Types (analysis : list MoveAnalysis) (cur n : TreeNode) (loc : list nat).

Lemma addAnalysis_loop_unfold analysis i cur :
  addAnalysis_loop getAnnotation analysis i cur =
  match analysis !! i with
  | None => cur
  | Some a =>
      match children cur with
      | [] => analyse getAnnotation analysis i a cur
      | next :: others =>
          set_children (analyse getAnnotation analysis i a cur)
                       (addAnalysis_loop getAnnotation analysis (S i) next :: others)
      end
  end.
Proof. by destruct cur. Qed.

Lemma analyse_children analysis i a cur :
  children (analyse getAnnotation analysis i a cur) = children cur.
Proof. unfold analyse. by destruct (novelty a). Qed.

Lemma countMainPly_unfold n :
  countMainPly n = match children n with [] => 0%nat | c :: _ => S (countMainPly c) end.
Proof. by destruct n. Qed.

Lemma mainline_cons k : mainline (S k) = 0%nat :: mainline k.
Proof. reflexivity. Qed.

(** A mainline of length above [k] has a [k]-th node. *)
Lemma mainline_exists n k :
  (k < countMainPly n)%nat → is_Some (nodeAt n (mainline k)).
Proof.
  revert n. induction k as [|k IH]; intros n; rewrite countMainPly_unfold;
    destruct (children n) as [|c cs] eqn:Hc; try lia; intros Hk.
  - unfold mainline. simpl. rewrite Hc. simpl. by eexists.
  - rewrite mainline_cons. simpl. rewrite Hc. simpl. apply IH. lia.
Qed.

Lemma all_zero_cons (j : nat) loc :
  j :: loc = replicate (length (j :: loc)) 0%nat ↔
  j = 0%nat ∧ loc = replicate (length loc) 0%nat.
Proof. simpl. split; [by intros [= -> <-]|by intros [-> <-]]. Qed.

(** What the loop started at index [i] on [cur] leaves at a location below
    [cur]: the node on the chain of first children at distance [d] is
    analysed with entry [i + d], when there is one; the others are as they
    were; no node appears or disappears. *)
Lemma addAnalysis_loop_nodeAt analysis loc : ∀ i cur n,
  nodeAt cur loc = Some n →
  ∃ n', nodeAt (addAnalysis_loop getAnnotation analysis i cur) loc = Some n'
        ∧ length (children n') = length (children n)
        ∧ shallow n' =
          shallow (match analysis !! (i + length loc)%nat with
                   | Some a =>
                       if bool_decide (loc = replicate (length loc) 0%nat)
                       then analyse getAnnotation analysis (i + length loc) a n
                       else n
                   | None => n
                   end).
Proof.
  induction loc as [|j loc IH]; intros i cur n.
  - intros [= ->]. rewrite addAnalysis_loop_unfold. cbn [length].
    rewrite Nat.add_0_r. eexists. split; [done|].
    destruct (analysis !! i) as [a|]; [|done].
    rewrite bool_decide_eq_true_2 by done.
    destruct (children n) as [|next others] eqn:Hc; (split; [|done]).
    + by rewrite analyse_children, Hc.
    + done.
  - cbn [nodeAt]. rewrite addAnalysis_loop_unfold.
    destruct (analysis !! i) as [a|] eqn:Ha.
    + destruct (children cur) as [|next others] eqn:Hc; [done|].
      destruct j as [|j]; cbn [lookup list_lookup children set_children].
      * intros Hn. destruct (IH (S i) next n Hn) as (n' & Hn' & Hlen & Hsh).
        exists n'. split; [done|]. split; [done|]. rewrite Hsh.
        cbn [length]. replace (i + S (length loc))%nat with (S i + length loc)%nat by lia.
        destruct (analysis !! (S i + length loc)%nat); [|done].
        rewrite (bool_decide_ext _ _ (all_zero_cons 0 loc)).
        destruct (decide (loc = replicate (length loc) 0%nat)) as [Hz|Hz].
        -- by rewrite !bool_decide_eq_true_2.
        -- rewrite !bool_decide_eq_false_2; [done| |done]. by intros [_ ?].
      * intros Hn. exists n. simpl. rewrite Hn. split; [done|]. split; [done|].
        by destruct (analysis !! (i + S (length loc))%nat).
    + intros Hn. exists n. split; [done|]. split; [done|].
      apply lookup_ge_None in Ha.
      rewrite (proj2 (lookup_ge_None analysis (i + length (j :: loc)))); [done|lia].
Qed.

Lemma addAnalysis_loop_nodeAt_None analysis loc : ∀ i cur,
  nodeAt cur loc = None → nodeAt (addAnalysis_loop getAnnotation analysis i cur) loc = None.
Proof.
  induction loc as [|j loc IH]; intros i cur; [done|].
  cbn [nodeAt]. rewrite addAnalysis_loop_unfold.
  destruct (analysis !! i) as [a|]; [|done].
  destruct (children cur) as [|next others] eqn:Hc.
  { intros _. cbn [nodeAt]. by rewrite analyse_children, Hc. }
  destruct j as [|j]; simpl; [|done].
  destruct (nodeAt next loc) eqn:Hn; [done|]. intros _. by apply IH.
Qed.

Lemma analyse_shallow analysis k a n :
  shallow (analyse getAnnotation analysis k a n) =
  mkNode (fen n) (move n) [] (Some (score_of (best a))) (depth n) (halfMoves n)
         (shapes n)
         (getAnnotation (previousEvaluation analysis k) (score_of (best a))
                        (sideToMove k))
         (if novelty a then "Novelty" else commentHTML n)
         (if novelty a then "Novelty" else commentText n).
Proof.
  unfold analyse, previousEvaluation, sideToMove, baseline.
  destruct (novelty a), k as [|j]; simpl; try done;
    by destruct (analysis !! j).
Qed.

(** C8: ADD_ANALYSIS with an analysis no longer than the mainline.  Every
    entry has its mainline node; the tree keeps its shape; the [k]-th
    mainline node gets the evaluation of entry [k], the classification of
    the previous evaluation (0 centipawns before the first ply) against it
    for white on even and black on odd [k], and the comment "Novelty" in
    both representations when the entry is a novelty, its other fields
    being kept; every node that is not one of these is as it was. *)
Theorem analysis_marks_first_plies state analysis :
  (length analysis ≤ countMainPly (root state))%nat →
  ∃ state',
    dispatch chess_new chess_move getAnnotation state (ADD_ANALYSIS analysis) = Returns state'
    ∧ headers state' = headers state
    ∧ position state' = position state
    ∧ (∀ k, (k < length analysis)%nat → is_Some (nodeAt (root state) (mainline k)))
    ∧ (∀ loc, nodeAt (root state) loc = None → nodeAt (root state') loc = None)
    ∧ (∀ loc n, nodeAt (root state) loc = Some n →
         ∃ n', nodeAt (root state') loc = Some n'
           ∧ length (children n') = length (children n)
           ∧ (∀ k a, loc = mainline k → analysis !! k = Some a →
                shallow n' =
                mkNode (fen n) (move n) [] (Some (score_of (best a))) (depth n)
                  (halfMoves n) (shapes n)
                  (getAnnotation (previousEvaluation analysis k)
                                 (score_of (best a)) (sideToMove k))
                  (if novelty a then "Novelty" else commentHTML n)
                  (if novelty a then "Novelty" else commentText n))
           ∧ ((∀ k, (k < length analysis)%nat → loc ≠ mainline k) →
              shallow n' = shallow n)).
Proof.
  intros Hlen. eexists. split; [reflexivity|].
  unfold addAnalysis. cbn [root set_dirty].
  destruct (children (root state)) as [|cur others] eqn:Hc.
  { rewrite countMainPly_unfold, Hc in Hlen.
    assert (analysis = []) as -> by (apply nil_length_inv; lia).
    cbn [root headers position]. do 2 (split; [done|]).
    split; [simpl; lia|]. split; [done|].
    intros loc n Hn. exists n. split; [done|]. split; [done|].
    split; [by intros k a _ ?|done]. }
  cbn [set_root root headers position]. do 2 (split; [done|]).
  split; [intros k Hk; apply mainline_exists; lia|]. split.
  - intros [|j loc]; [done|]. cbn [nodeAt children set_children]. rewrite Hc.
    destruct j as [|j]; cbn [lookup list_lookup]; [|done].
    destruct (nodeAt cur loc) eqn:Hn; [done|]. intros _.
    by apply addAnalysis_loop_nodeAt_None.
  - intros [|j loc] n.
    + intros [= <-]. eexists. split; [done|]. cbn [children set_children length].
      split; [by rewrite Hc|]. split; [by intros k a ?|done].
    + cbn [nodeAt children set_children]. rewrite Hc.
      destruct j as [|j]; cbn [lookup list_lookup].
      * intros Hn.
        destruct (addAnalysis_loop_nodeAt analysis loc 0 cur n Hn)
          as (n' & Hn' & Hlen' & Hsh).
        exists n'. split; [done|]. split; [done|]. rewrite Hsh.
        cbn [Nat.add]. split.
        -- intros k a [= Hloc] Ha. rewrite Hloc, length_replicate, Ha.
           rewrite bool_decide_eq_true_2 by done. by rewrite analyse_shallow.
        -- intros Hother.
           destruct (analysis !! length loc) as [a|] eqn:Ha; [|done].
           case_bool_decide as Hz; [|done]. exfalso.
           apply (Hother (length loc)); [by eapply lookup_lt_Some|].
           unfold mainline. simpl. by f_equal.
      * intros Hn. exists n. split; [exact Hn|]. split; [done|].
        split; [by intros k a ?|done].
Qed.

End Analysis.

Lemma analysis_marks_first_plies_witness :
  (length Scenario.toy_analysis ≤ countMainPly (root Scenario.two_lines))%nat
  ∧ ∃ state',
      dispatch Scenario.toy_new Scenario.toy_chess Scenario.toy_annotation Scenario.two_lines
               (ADD_ANALYSIS Scenario.toy_analysis) = Returns state'
      ∧ nodeAt (root state') (mainline 1) =
          Some (mkNode "after e4 e5" (Some (mkMove "e5" "" "")) []
                  (Some (mkScore "cp" 10)) None 2 [] Annotation_Mistake
                  "Novelty" "Novelty").
Proof.
  split; [simpl; lia|].
  destruct (analysis_marks_first_plies Scenario.toy_new Scenario.toy_chess Scenario.toy_annotation
              Scenario.two_lines Scenario.toy_analysis ltac:(simpl; lia))
    as (state' & Hrun & _).
  exists state'. split; [exact Hrun|].
  injection Hrun as <-. reflexivity.
Defined.

(** ** Calls that return on well-formed paths *)

Section Totality.
Variable chess_new : string -> bool.
Variable chess_move : string -> MoveDescriptor -> option (Move * string).
Variable getAnnotation : Score -> Score -> string -> Annotation.

Lemma findIndex_from_nonneg {A} (p : nat -> A -> bool) i (arr : list A) :
  findIndex_from p i arr ≠ -1 → 0 <= findIndex_from p i arr.
Proof. destruct (findIndex_from_bounds p i arr); lia. Qed.

Lemma deleteMove_nonneg state path :
  Forall (λ i, 0 <= i) path → ∃ state', deleteMove state path = Returns state'.
Proof.
  intros Hpath. unfold deleteMove.
  destruct (getRefAtPath_nonneg (root state) path Hpath) as (nl & n & ->).
  assert (Forall (λ i, 0 <= i) (slice_init path)) as Hinit by by apply Forall_take.
  destruct (getRefAtPath_nonneg (root state) _ Hinit) as (pl & p & Hp).
  simpl. rewrite Hp. by eauto.
Qed.

Lemma editCurrent_nonneg f state :
  Forall (λ i, 0 <= i) (position state) → ∃ state', editCurrent f state = Returns state'.
Proof.
  intros Hpos. unfold editCurrent.
  destruct (getRefAtPath_nonneg (root state) _ Hpos) as (loc & n & ->). by eauto.
Qed.

Lemma setShapes_nonneg state m rest :
  Forall (λ i, 0 <= i) (position state) → ∃ state', setShapes state (m :: rest) = Returns state'.
Proof.
  intros Hpos.
  destruct (getRefAtPath_nonneg (root state) _ Hpos) as (loc & n & Hr).
  rewrite (setShapes_toggle state loc n m rest Hr). by eauto.
Qed.

Lemma promoteVariation_nonneg state path :
  Forall (λ i, 0 <= i) path → promoteVariation state path ≠ Throws.
Proof.
  intros Hpath. unfold promoteVariation.
  destruct (reduceRight _ _ path) as [v i].
  case_bool_decide; [done|]. case_bool_decide; [done|].
  assert (Forall (λ i, 0 <= i) (slice_to i path)) as Htake by by apply Forall_take.
  destruct (getRefAtPath_nonneg (root state) _ Htake) as (loc & n & Hr).
  rewrite Hr. simpl. by destruct (take 1 _ !! 0%nat).
Qed.

End Totality.

(** ** Trees: induction and updates at a location *)

Lemma TreeNode_children_ind (P : TreeNode → Prop) :
  (∀ n, Forall P (children n) → P n) → ∀ n, P n.
Proof.
  intros step. fix IH 1. intros [f mv cs sc d hm sh an ch ct]. apply step. simpl.
  induction cs as [|c cs IHcs]; constructor; [apply IH|exact IHcs].
Qed.

(** Below the edited node the tree is what the edit made of it. *)
Lemma nodeAt_modifyAt_below f node loc below n :
  nodeAt node loc = Some n →
  nodeAt (modifyAt f node loc) (loc ++ below) = nodeAt (f n) below.
Proof.
  revert node. induction loc as [|i loc IH]; intros node; simpl.
  - by intros [= ->].
  - destruct (children node !! i) as [c|] eqn:Hc; [|done]. intros Hn. simpl.
    apply lookup_lt_Some in Hc as Hlt.
    rewrite list_lookup_insert_eq by done. by apply IH.
Qed.

(** Elsewhere every node keeps its own fields and its number of children. *)
Lemma nodeAt_modifyAt_other f node loc other :
  ¬ loc `prefix_of` other →
  (nodeAt (modifyAt f node loc) other = None ↔ nodeAt node other = None)
  ∧ ∀ m, nodeAt node other = Some m →
      ∃ m', nodeAt (modifyAt f node loc) other = Some m'
            ∧ shallow m' = shallow m
            ∧ length (children m') = length (children m).
Proof.
  revert node other. induction loc as [|i loc IH]; intros node other Hnp.
  - destruct Hnp. apply prefix_nil.
  - simpl. destruct (children node !! i) as [c|] eqn:Hc.
    2:{ split; [done|]. intros m Hm. by exists m. }
    apply lookup_lt_Some in Hc as Hlt.
    destruct other as [|j other]; simpl.
    + split; [done|]. intros m [= <-]. eexists. split; [done|].
      split; [done|]. simpl. by rewrite length_insert.
    + destruct (decide (i = j)) as [<-|Hij].
      * rewrite list_lookup_insert_eq, Hc by done. apply IH.
        intros Hpre. apply Hnp. by apply prefix_cons.
      * rewrite list_lookup_insert_ne by done.
        destruct (children node !! j) as [cj|]; [|by split].
        split; [done|]. intros m Hm. by exists m.
Qed.

(** ** Properties of every node *)

Lemma AllNodes_sub P r loc n :
  AllNodes P r → nodeAt r loc = Some n → AllNodes P n.
Proof.
  intros Hr Hn below m Hm. apply (Hr (loc ++ below)). by rewrite nodeAt_app, Hn.
Qed.

Lemma AllNodes_leaf P n : children n = [] → P n → AllNodes P n.
Proof.
  intros Hc Hn [|i loc] m; simpl; [by intros [= <-]|]. by rewrite Hc, lookup_nil.
Qed.

Lemma AllNodes_impl (P Q : TreeNode → Prop) r :
  (∀ n, P n → Q n) → AllNodes P r → AllNodes Q r.
Proof. intros HPQ Hr loc n Hn. by apply HPQ, (Hr loc). Qed.

(** A property of the node's own fields survives one more child ... *)
Lemma AllNodes_pushed P n new :
  (∀ a b, shallow a = shallow b → P a → P b) →
  AllNodes P n → AllNodes P new →
  AllNodes P (set_children n (children n ++ [new])).
Proof.
  intros Hshallow Hn Hnew [|i loc] m; simpl.
  - intros [= <-]. apply (Hshallow n); [by destruct n|]. by apply (Hn []).
  - destruct (decide (i < length (children n))%nat).
    + rewrite lookup_app_l by done. intros Hm. by apply (Hn (i :: loc)).
    + rewrite lookup_app_r by lia.
      destruct (i - length (children n))%nat as [|k]; simpl; [apply Hnew|done].
Qed.

(** ... and an edit at a location that leaves it true below the location. *)
Lemma AllNodes_modifyAt P f r loc n :
  (∀ a b, shallow a = shallow b → P a → P b) →
  AllNodes P r → nodeAt r loc = Some n → AllNodes P (f n) →
  AllNodes P (modifyAt f r loc).
Proof.
  intros Hshallow Hr Hn Hfn other m Hm.
  destruct (decide (loc `prefix_of` other)) as [[below ->]|Hother].
  - rewrite (nodeAt_modifyAt_below _ _ _ _ _ Hn) in Hm. by apply (Hfn below).
  - destruct (nodeAt_modifyAt_other f r loc other Hother) as [Hnone Hsome].
    destruct (nodeAt r other) as [o|] eqn:Ho.
    + destruct (Hsome o eq_refl) as (o' & Ho' & Hsh & _).
      rewrite Ho' in Hm. injection Hm as <-.
      apply (Hshallow o); [done|]. by apply (Hr other).
    + rewrite (proj2 Hnone eq_refl) in Hm. done.
Qed.

(** ** Lenient resolution *)

Lemma getRefAtPath_deepest node path loc n :
  getRefAtPath node path = Returns (Some (loc, n)) →
  (Z.of_nat <$> loc) `prefix_of` path
  ∧ ∀ i, path !! length loc = Some i → Z.of_nat (length (children n)) <= i.
Proof.
  revert node loc. induction path as [|index rest IH]; intros node loc; simpl.
  - intros [= <- <-]. split; [done|]. by intros i.
  - case_bool_decide as Hlen.
    + intros [= <- <-]. split; [apply prefix_nil|]. by intros i [= <-].
    + unfold Js.index. case_bool_decide as Hpos; [|by destruct rest].
      destruct (children node !! Z.to_nat index) as [child|]; [|by destruct rest].
      destruct (getRefAtPath child rest) as [[[loc' n']|]| |] eqn:Hr; simpl; try done.
      intros [= <- <-]. destruct (IH child loc' Hr) as [Hpre Hstop].
      split; [|done]. rewrite fmap_cons, Z2Nat.id by done. by apply prefix_cons.
Qed.

(** X1: whenever [getNodeAtPath] returns a node, that node sits at the
    longest prefix of the path that is a chain of valid child indices: the
    indices walked are a prefix of the path, and the walk stopped either at
    the end of the path or at an index that is past the children of the node
    returned. *)
Theorem getNodeAtPath_deepest node path n :
  getNodeAtPath node path = Returns (Some n) →
  ∃ loc, nodeAt node loc = Some n
         ∧ (Z.of_nat <$> loc) `prefix_of` path
         ∧ ∀ i, path !! length loc = Some i → Z.of_nat (length (children n)) <= i.
Proof.
  rewrite getNodeAtPath_ref.
  destruct (getRefAtPath node path) as [[[loc n']|]| |] eqn:Hr; try done.
  simpl. intros [= <-]. exists loc. split; [by eapply getRefAtPath_nodeAt|].
  by apply (getRefAtPath_deepest node).
Qed.

Lemma getNodeAtPath_deepest_witness :
  getNodeAtPath (root Scenario.two_lines) [0; 7; 1] = Returns (Some Scenario.A)
  ∧ ∃ loc, nodeAt (root Scenario.two_lines) loc = Some Scenario.A
           ∧ (Z.of_nat <$> loc) `prefix_of` [0; 7; 1]
           ∧ ∀ i, [0; 7; 1] !! length loc = Some i →
                  Z.of_nat (length (children Scenario.A)) <= i.
Proof.
  split; [reflexivity|].
  apply (getNodeAtPath_deepest (root Scenario.two_lines) [0; 7; 1] Scenario.A).
  reflexivity.
Defined.

(** ** The mainline *)

Lemma zeros_Z k : Z.of_nat <$> replicate k 0%nat = replicate k 0.
Proof. by rewrite fmap_replicate. Qed.

Lemma countMainPly_mainline n k :
  is_Some (nodeAt n (replicate k 0%nat)) ↔ (k <= countMainPly n)%nat.
Proof.
  revert n. induction k as [|k IH]; intros n.
  - simpl. split; [lia|by eauto].
  - rewrite countMainPly_unfold. simpl.
    destruct (children n) as [|c cs]; simpl.
    + split; [by intros [? ?]|lia].
    + rewrite IH. lia.
Qed.

Lemma countMainPly_leaf n :
  ∃ leaf, nodeAt n (replicate (countMainPly n) 0%nat) = Some leaf
          ∧ children leaf = [].
Proof.
  induction n as [n IH] using TreeNode_children_ind.
  rewrite countMainPly_unfold.
  destruct (children n) as [|c cs] eqn:Hc; simpl.
  - by exists n.
  - rewrite Hc. simpl. by apply Forall_cons_1 in IH as [IHc _].
Qed.

Section GoToEnd.
Variable chess_new : string -> bool.
Variable chess_move : string -> MoveDescriptor -> option (Move * string).
Variable getAnnotation : Score -> Score -> string -> Annotation.

(** X2: GO_TO_END changes nothing but the current path, which becomes as
    many zeros as [countMainPly] counts; this path resolves, without any
    fallback, to the node that ends the chain of first children, a node
    without children, so that a GO_TO_NEXT that follows changes nothing. *)
Theorem go_to_end_selects_mainline_leaf state :
  ∃ state' leaf,
    dispatch chess_new chess_move getAnnotation state GO_TO_END = Returns state'
    ∧ root state' = root state
    ∧ headers state' = headers state
    ∧ dirty state' = dirty state
    ∧ position state' = replicate (countMainPly (root state)) 0
    ∧ getRefAtPath (root state') (position state') =
        Returns (Some (replicate (countMainPly (root state)) 0%nat, leaf))
    ∧ getNodeAtPath (root state') (position state') = Returns (Some leaf)
    ∧ children leaf = []
    ∧ dispatch chess_new chess_move getAnnotation state' GO_TO_NEXT = Returns state'.
Proof.
  destruct (countMainPly_leaf (root state)) as (leaf & Hleaf & Hnone).
  pose proof (getRefAtPath_valid _ _ _ Hleaf) as Href. rewrite zeros_Z in Href.
  pose proof (getNodeAtPath_valid _ _ _ Hleaf) as Hget. rewrite zeros_Z in Hget.
  eexists. exists leaf. split; [reflexivity|]. simpl.
  do 4 (split; [done|]). do 3 (split; [done|]).
  unfold dispatch, treeReducer. simpl. rewrite Hget. simpl.
  by rewrite Hnone.
Qed.

End GoToEnd.

(** ** Completeness of the traversal *)

Lemma child_frames_lookup position i cs j c :
  cs !! j = Some c →
  mkListNode (position ++ [Z.of_nat (i + j)]) c ∈ child_frames position i cs.
Proof.
  revert i j. induction cs as [|c' cs IH]; intros i j; [done|].
  destruct j as [|j]; simpl.
  - intros [= ->]. rewrite Nat.add_0_r. left.
  - intros Hc. right. replace (i + S j)%nat with (S i + j)%nat by lia.
    by apply IH.
Qed.

Lemma preorder_complete loc : ∀ position node n,
  nodeAt node loc = Some n →
  mkListNode (position ++ (Z.of_nat <$> loc)) n ∈ preorder position node.
Proof.
  induction loc as [|i loc IH]; intros position node n.
  - intros [= ->]. rewrite preorder_unfold, app_nil_r. left.
  - cbn [nodeAt]. destruct (children node !! i) as [c|] eqn:Hc; [|done].
    intros Hn. rewrite preorder_unfold. right.
    apply list_elem_of_In, in_flat_map.
    exists (mkListNode (position ++ [Z.of_nat i]) c). split.
    + apply list_elem_of_In. by apply (child_frames_lookup position 0 _ i c).
    + apply list_elem_of_In. cbn [ln_position ln_node].
      rewrite fmap_cons, (cons_middle (Z.of_nat i)), app_assoc. by apply IH.
Qed.

Lemma preorder_length n : ∀ position, length (preorder position n) = size n.
Proof.
  induction n as [n IHn] using TreeNode_children_ind. intros position.
  rewrite preorder_unfold, size_unfold. simpl. f_equal. unfold expand.
  generalize 0%nat. induction (children n) as [|c cs IHcs]; intros i; [done|].
  apply Forall_cons_1 in IHn as [IHc IHrest].
  cbn [child_frames flat_map map list_sum ln_position ln_node].
  rewrite length_app, IHc.
  change (list_sum (size c :: map size cs)) with (size c + list_sum (map size cs))%nat.
  f_equal. by apply IHcs.
Qed.

Lemma preorder_positions n : ∀ position,
  NoDup (ln_position <$> preorder position n)
  ∧ Forall (λ f, position `prefix_of` ln_position f) (preorder position n).
Proof.
  induction n as [n IHn] using TreeNode_children_ind. intros position.
  rewrite preorder_unfold.
  assert (∀ i,
    NoDup (ln_position <$> expand (child_frames position i (children n)))
    ∧ Forall (λ f, ∃ j, (i <= j)%nat
                        ∧ (position ++ [Z.of_nat j]) `prefix_of` ln_position f)
        (expand (child_frames position i (children n)))) as Hsub.
  { induction (children n) as [|c cs IHcs]; intros i.
    { split; constructor. }
    apply Forall_cons_1 in IHn as [IHc IHrest].
    destruct (IHc (position ++ [Z.of_nat i])) as [Hnd Hpre].
    destruct (IHcs IHrest (S i)) as [Hnds Hpres].
    unfold expand in *. cbn [child_frames flat_map ln_position ln_node].
    split.
    - rewrite fmap_app. apply NoDup_app. split; [done|]. split; [|done].
      intros p (f & -> & Hf)%list_elem_of_fmap (g & Heq & Hg)%list_elem_of_fmap.
      rewrite Forall_forall in Hpre, Hpres.
      specialize (Hpre f Hf). destruct (Hpres g Hg) as (j & Hj & Hpj).
      rewrite <- Heq in Hpj.
      destruct (prefix_weak_total _ _ _ Hpre Hpj) as [H|H];
        apply prefix_length_eq in H; rewrite ?length_app; simpl; try lia;
        apply app_inv_head in H; injection H; lia.
    - apply Forall_app. split.
      + eapply Forall_impl; [exact Hpre|]. intros f Hf. exists i. by split.
      + eapply Forall_impl; [exact Hpres|]. intros f (j & Hj & Hf). exists j.
        split; [lia|done]. }
  destruct (Hsub 0%nat) as [Hnd Hpre]. split.
  - rewrite fmap_cons. apply NoDup_cons. split; [|done]. simpl.
    intros (f & Heq & Hf)%list_elem_of_fmap.
    rewrite Forall_forall in Hpre. destruct (Hpre f Hf) as (j & _ & Hpj).
    rewrite <- Heq in Hpj. apply prefix_length in Hpj.
    rewrite length_app in Hpj. simpl in Hpj. lia.
  - constructor; [done|]. eapply Forall_impl; [exact Hpre|].
    intros f (j & _ & Hf). etrans; [|exact Hf]. by apply prefix_app_r.
Qed.

(** X3: the traversal yields every node of the tree under its index chain,
    it yields as many pairs as the tree has nodes, and no path twice: each
    node is yielded exactly once. *)
Theorem traversal_complete root :
  length (treeIterator root) = size root
  ∧ NoDup (ln_position <$> treeIterator root)
  ∧ ∀ loc n, nodeAt root loc = Some n →
             mkListNode (Z.of_nat <$> loc) n ∈ treeIterator root.
Proof.
  rewrite treeIterator_preorder. split; [|split].
  - apply preorder_length.
  - apply preorder_positions.
  - intros loc n Hn. by apply (preorder_complete loc []).
Qed.

(** ** Move application *)

Lemma findIndex_from_found {A} (p : nat -> A -> bool) i (arr : list A) :
  findIndex_from p i arr ≠ -1 →
  ∃ k c, findIndex_from p i arr = Z.of_nat (i + k)
         ∧ arr !! k = Some c
         ∧ p (i + k)%nat c = true
         ∧ ∀ j c', (j < k)%nat → arr !! j = Some c' → p (i + j)%nat c' = false.
Proof.
  revert i. induction arr as [|x arr IH]; intros i; simpl; [done|].
  destruct (p i x) eqn:Hp.
  - intros _. exists 0%nat, x. rewrite Nat.add_0_r. do 3 (split; [done|]).
    intros j c' Hj. lia.
  - intros Hfound. destruct (IH (S i) Hfound) as (k & c & Heq & Hc & Hpk & Hbefore).
    exists (S k), c. replace (i + S k)%nat with (S i + k)%nat by lia.
    do 3 (split; [done|]). intros [|j] c' Hj; simpl.
    + intros [= <-]. by rewrite Nat.add_0_r.
    + intros Hc'. replace (i + S j)%nat with (S i + j)%nat by lia.
      apply (Hbefore j c'); [lia|done].
Qed.

Lemma findIndex_from_first {A} (q : A -> bool) i (pre post : list A) old :
  (∀ x, x ∈ pre → q x = false) → q old = true →
  findIndex_from (fun _ x => q x) i (pre ++ old :: post) = Z.of_nat (i + length pre).
Proof.
  intros Hpre Hold. revert i Hpre.
  induction pre as [|x pre IH]; intros i Hpre; simpl.
  - rewrite Hold. f_equal. lia.
  - rewrite (Hpre x) by left. rewrite IH; [f_equal; lia|].
    intros y Hy. apply Hpre. by right.
Qed.

Lemma findIndex_from_absent {A} (q : A -> bool) i (arr : list A) :
  findIndex_from (fun _ x => q x) i arr = -1 → ∀ x, x ∈ arr → q x = false.
Proof.
  revert i. induction arr as [|y arr IH]; intros i; simpl; [by intros _ x ?%elem_of_nil|].
  destruct (q y) eqn:Hy; [lia|]. intros Hrest x [->|Hx]%elem_of_cons; [done|].
  by apply (IH (S i)).
Qed.

Lemma round_double_exact z : - 2 ^ 53 <= z <= 2 ^ 53 → round_double z = z.
Proof.
  intros Hz. unfold round_double.
  destruct (Z.ltb_spec (Z.abs z) (2 ^ 53)) as [|Habs]; [done|].
  assert (z = 2 ^ 53 ∨ z = - 2 ^ 53) as [-> | ->] by lia; by vm_compute.
Qed.

Lemma add_one_exact x : - 2 ^ 53 <= x → x + 1 <= 2 ^ 53 → Js.add x 1 = x + 1.
Proof. intros Hlo Hhi. unfold Js.add. apply round_double_exact. lia. Qed.

(** Above 2^53 a double holds even integers only: the sum rounds back. *)
Lemma add_one_rounds : Js.add (2 ^ 53) 1 = 2 ^ 53.
Proof. by vm_compute. Qed.

Lemma set_dirty_true state : dirty state = true → set_dirty state true = state.
Proof. destruct state. simpl. by intros ->. Qed.

Section Moves.
Variable chess_new : string -> bool.
Variable chess_move : string -> MoveDescriptor -> option (Move * string).
Variable getAnnotation : Score -> Score -> string -> Annotation.

Lemma makeMove_dirty state mv state' :
  makeMove chess_new chess_move state mv = Returns state' → dirty state' = dirty state.
Proof.
  unfold makeMove.
  destruct (getRefAtPath (root state) (position state)) as [[[loc n]|]| |];
    simpl; try done; [|by intros [= <-]].
  destruct (chess_result chess_new chess_move (fen n) mv) as [| |m f'];
    [done|by intros [= <-]|].
  case_bool_decide; by intros [= <-].
Qed.

(** X4: a legal move that no child of the selected node carries.  When the
    current path resolves in full and the collaborator loads the position of
    the selected node, MAKE_MOVE appends one node to the children of the
    selected node: the canonical move, the position the collaborator
    returned, the sum of the ply index of the parent and one as doubles add
    them, and no children, evaluation, markers, annotation or comment.  That
    sum is the ply index of the parent plus one when the parent's lies
    between -2^53 and 2^53 - 1.  The current path is extended by the index
    of the new child and resolves to it; every node outside the subtree of
    the selected node keeps its fields and its number of children. *)
Theorem make_move_appends_child state loc n mv m newFen :
  position state = Z.of_nat <$> loc →
  nodeAt (root state) loc = Some n →
  chess_result chess_new chess_move (fen n) mv = Played m newFen →
  (∀ c, c ∈ children n → sameSan m c = false) →
  ∃ state',
    dispatch chess_new chess_move getAnnotation state (MAKE_MOVE mv) = Returns state'
    ∧ headers state' = headers state
    ∧ dirty state' = true
    ∧ position state' = position state ++ [Z.of_nat (length (children n))]
    ∧ nodeAt (root state') loc =
        Some (set_children n
                (children n ++ [createNode newFen m (Js.add (halfMoves n) 1)]))
    ∧ getNodeAtPath (root state') (position state') =
        Returns (Some (createNode newFen m (Js.add (halfMoves n) 1)))
    ∧ (- 2 ^ 53 <= halfMoves n < 2 ^ 53 →
       Js.add (halfMoves n) 1 = halfMoves n + 1)
    ∧ ∀ other o, ¬ loc `prefix_of` other → nodeAt (root state) other = Some o →
        ∃ o', nodeAt (root state') other = Some o'
              ∧ shallow o' = shallow o
              ∧ length (children o') = length (children o).
Proof.
  intros Hpos Hn Hlegal Hfresh.
  pose proof (getRefAtPath_valid _ _ _ Hn) as Href. rewrite <- Hpos in Href.
  unfold dispatch, treeReducer, makeMove. cbn [root position set_dirty].
  rewrite Href. cbn [Js.bind]. rewrite Hlegal.
  rewrite bool_decide_eq_false_2.
  2:{ intros Hi. apply Hi. unfold findIndex.
      destruct (findIndex_from_bounds (λ _ c, sameSan m c) 0 (children n))
        as [?|Hb]; [done|].
      destruct (findIndex_from_found (λ _ c, sameSan m c) 0 (children n))
        as (k & c & _ & Hc & Hp & _); [lia|].
      rewrite (Hfresh c) in Hp; [done|]. by eapply list_elem_of_lookup_2. }
  eexists. split; [reflexivity|]. cbn [Js.bind fst snd default from_option id
    headers dirty position root].
  do 2 (split; [done|]).
  split. { rewrite length_app. simpl. do 2 f_equal. lia. }
  split. { by rewrite (nodeAt_modifyAt _ _ _ _ Hn). }
  split.
  - rewrite length_app. simpl.
    replace (Z.of_nat (length (children n) + 1) - 1) with
      (Z.of_nat (length (children n))) by lia.
    rewrite Hpos.
    replace ((Z.of_nat <$> loc) ++ [Z.of_nat (length (children n))]) with
      (Z.of_nat <$> (loc ++ [length (children n)])) by by rewrite fmap_app.
    apply getNodeAtPath_valid.
    rewrite (nodeAt_modifyAt_below _ _ _ _ _ Hn). simpl.
    by rewrite lookup_app_r, Nat.sub_diag by done.
  - split; [intros Hply; apply add_one_exact; lia|].
    intros other o Hother Ho.
    by apply (nodeAt_modifyAt_other _ (root state) loc other Hother).
Qed.

(** X5: a legal move that a child of the selected node already carries
    creates nothing: the tree and the headers are as they were, and the
    current path is extended by the index of the first child whose move has
    the same notation, which the extended path resolves to when the current
    path resolved in full. *)
Theorem make_move_reuses_child state loc n mv m newFen c :
  position state = Z.of_nat <$> loc →
  nodeAt (root state) loc = Some n →
  chess_result chess_new chess_move (fen n) mv = Played m newFen →
  c ∈ children n → sameSan m c = true →
  ∃ state' i first,
    dispatch chess_new chess_move getAnnotation state (MAKE_MOVE mv) = Returns state'
    ∧ root state' = root state
    ∧ headers state' = headers state
    ∧ dirty state' = true
    ∧ position state' = position state ++ [Z.of_nat i]
    ∧ children n !! i = Some first
    ∧ sameSan m first = true
    ∧ (∀ j c', (j < i)%nat → children n !! j = Some c' → sameSan m c' = false)
    ∧ getNodeAtPath (root state') (position state') = Returns (Some first).
Proof.
  intros Hpos Hn Hlegal Hc Hsame.
  pose proof (getRefAtPath_valid _ _ _ Hn) as Href. rewrite <- Hpos in Href.
  assert (findIndex (λ _ x, sameSan m x) (children n) ≠ -1) as Hfound.
  { intros Habs. apply findIndex_from_absent with (x := c) in Habs; [|done].
    by rewrite Habs in Hsame. }
  destruct (findIndex_from_found _ 0 _ Hfound) as (i & first & Hi & Hfirst & Hp & Hbefore).
  unfold dispatch, treeReducer, makeMove. cbn [root position set_dirty].
  rewrite Href. cbn [Js.bind]. rewrite Hlegal.
  rewrite bool_decide_eq_true_2 by done.
  eexists. exists i, first. split; [reflexivity|].
  cbn [Js.bind fst snd default from_option id headers dirty position root
       set_position].
  do 3 (split; [done|]). unfold findIndex. rewrite Hi. simpl.
  do 4 (split; [done|]).
  rewrite Hpos.
  replace ((Z.of_nat <$> loc) ++ [Z.of_nat i]) with
    (Z.of_nat <$> (loc ++ [i])) by by rewrite fmap_app.
  apply getNodeAtPath_valid. rewrite nodeAt_app, Hn. simpl. by rewrite Hfirst.
Qed.

Lemma makeMove_valid state loc n mv m newFen :
  position state = Z.of_nat <$> loc →
  nodeAt (root state) loc = Some n →
  chess_result chess_new chess_move (fen n) mv = Played m newFen →
  makeMove chess_new chess_move state mv =
  Returns
    (if bool_decide (findIndex (λ _ c, sameSan m c) (children n) ≠ -1)
     then set_position state
            (position state ++ [findIndex (λ _ c, sameSan m c) (children n)])
     else mkState
            (modifyAt
               (λ p, set_children p
                       (children p ++
                          [createNode newFen m (Js.add (halfMoves n) 1)]))
               (root state) loc)
            (headers state)
            (position state ++ [Z.of_nat (length (children n))])
            (dirty state)).
Proof.
  intros Hpos Hn Hlegal.
  pose proof (getRefAtPath_valid _ _ _ Hn) as Href. rewrite <- Hpos in Href.
  unfold makeMove. rewrite Href. cbn [Js.bind]. rewrite Hlegal.
  rewrite length_app. cbn [length].
  replace (Z.of_nat (length (children n) + 1) - 1) with
    (Z.of_nat (length (children n))) by lia.
  by case_bool_decide.
Qed.

Lemma dispatch_MAKE_MOVE state mv :
  dispatch chess_new chess_move getAnnotation state (MAKE_MOVE mv) =
  makeMove chess_new chess_move (set_dirty state true) mv.
Proof.
  unfold dispatch, treeReducer.
  by destruct (makeMove chess_new chess_move (set_dirty state true) mv).
Qed.

Lemma dispatch_GO_TO_PREVIOUS_snoc state path i :
  position state = path ++ [i] →
  dispatch chess_new chess_move getAnnotation state GO_TO_PREVIOUS =
  Returns (set_position state path).
Proof.
  intros Hpos. unfold dispatch, treeReducer. rewrite Hpos, slice_init_snoc.
  by rewrite bool_decide_eq_true_2 by (rewrite length_app; simpl; lia).
Qed.

(** X6: replaying a move.  With a current path that resolves in full and a
    move that is legal at the selected node, MAKE_MOVE, GO_TO_PREVIOUS and
    the same MAKE_MOVE again end in the state the first MAKE_MOVE produced:
    the second application finds the child of the first and adds nothing. *)
Theorem make_move_replay state loc n mv m newFen :
  position state = Z.of_nat <$> loc →
  nodeAt (root state) loc = Some n →
  chess_result chess_new chess_move (fen n) mv = Played m newFen →
  (let* s1 := dispatch chess_new chess_move getAnnotation state (MAKE_MOVE mv) in
   let* s2 := dispatch chess_new chess_move getAnnotation s1 GO_TO_PREVIOUS in
   dispatch chess_new chess_move getAnnotation s2 (MAKE_MOVE mv)) =
  dispatch chess_new chess_move getAnnotation state (MAKE_MOVE mv).
Proof.
  intros Hpos Hn Hlegal. rewrite !dispatch_MAKE_MOVE.
  rewrite (makeMove_valid (set_dirty state true) loc n mv m newFen Hpos Hn Hlegal).
  set (new := createNode newFen m (Js.add (halfMoves n) 1)).
  set (pushed := λ p, set_children p (children p ++ [new])).
  case_bool_decide as Hfound; cbn [Js.bind].
  - erewrite dispatch_GO_TO_PREVIOUS_snoc by reflexivity. cbn [Js.bind].
    rewrite dispatch_MAKE_MOVE.
    match goal with
    | |- context [makeMove chess_new chess_move ?s2 mv] =>
        rewrite (makeMove_valid s2 loc n mv m newFen Hpos Hn Hlegal)
    end.
    by rewrite bool_decide_eq_true_2 by done.
  - assert (findIndex (λ _ c, sameSan m c) (children n) = -1) as Hnone.
    { destruct (decide (findIndex (λ _ c, sameSan m c) (children n) = -1)); done. }
    pose proof (findIndex_from_absent _ _ _ Hnone) as Hfresh.
    erewrite dispatch_GO_TO_PREVIOUS_snoc by reflexivity. cbn [Js.bind].
    rewrite dispatch_MAKE_MOVE.
    assert (nodeAt (modifyAt pushed (root state) loc) loc = Some (pushed n)) as Hn1.
    { by apply nodeAt_modifyAt. }
    match goal with
    | |- context [makeMove chess_new chess_move ?s2 mv] =>
        rewrite (makeMove_valid s2 loc (pushed n) mv m newFen Hpos Hn1 Hlegal)
    end.
    cbn [children set_children pushed]. unfold findIndex.
    rewrite (findIndex_from_first (sameSan m) 0 (children n) [] new Hfresh).
    2:{ unfold sameSan. simpl. by rewrite bool_decide_eq_true_2. }
    by rewrite bool_decide_eq_true_2 by lia.
Qed.

Lemma makeMoves_app moves1 moves2 : ∀ state,
  makeMoves chess_new chess_move state (moves1 ++ moves2) =
  let* s := makeMoves chess_new chess_move state moves1 in makeMoves chess_new chess_move s moves2.
Proof.
  induction moves1 as [|mv moves1 IH]; intros state; simpl; [done|].
  destruct (makeMove chess_new chess_move state (Algebraic mv)); simpl; [|done..].
  apply IH.
Qed.

Lemma makeMoves_dirty moves : ∀ state state',
  makeMoves chess_new chess_move state moves = Returns state' → dirty state' = dirty state.
Proof.
  induction moves as [|mv moves IH]; intros state state'; simpl.
  - by intros [= <-].
  - destruct (makeMove chess_new chess_move state (Algebraic mv)) as [s| |] eqn:Hs;
      simpl; try done.
    intros Hrest. rewrite (IH _ _ Hrest). by eapply makeMove_dirty.
Qed.

(** X7: a batch of moves is the sequence of its moves.  MAKE_MOVES with
    the concatenation of two batches acts as MAKE_MOVES with the first
    followed by MAKE_MOVES with the second, and MAKE_MOVES with one move
    acts as MAKE_MOVE with that move in algebraic notation. *)
Theorem make_moves_in_sequence state moves1 moves2 mv :
  dispatch chess_new chess_move getAnnotation state (MAKE_MOVES (moves1 ++ moves2)) =
    (let* s := dispatch chess_new chess_move getAnnotation state (MAKE_MOVES moves1) in
     dispatch chess_new chess_move getAnnotation s (MAKE_MOVES moves2))
  ∧ dispatch chess_new chess_move getAnnotation state (MAKE_MOVES [mv]) =
    dispatch chess_new chess_move getAnnotation state (MAKE_MOVE (Algebraic mv)).
Proof.
  split.
  - unfold dispatch, treeReducer. rewrite makeMoves_app.
    destruct (makeMoves chess_new chess_move (set_dirty state true) moves1) as [s| |] eqn:Hs;
      [|done..].
    cbn [Js.bind fst snd default from_option id].
    rewrite set_dirty_true; [done|]. by rewrite (makeMoves_dirty _ _ _ Hs).
  - unfold dispatch, treeReducer. simpl.
    by destruct (makeMove chess_new chess_move (set_dirty state true) (Algebraic mv)).
Qed.

(** X8: a batch is not atomic.  A move of the batch that the collaborator
    rejects as illegal on the position of the node reached by the moves
    before it, a position the collaborator loads, is dropped, and the moves
    after it are applied as if it had not been there. *)
Theorem make_moves_skips_illegal state moves1 bad moves2 s n :
  dispatch chess_new chess_move getAnnotation state (MAKE_MOVES moves1) = Returns s →
  getNodeAtPath (root s) (position s) = Returns (Some n) →
  chess_result chess_new chess_move (fen n) (Algebraic bad) = Illegal →
  dispatch chess_new chess_move getAnnotation state (MAKE_MOVES (moves1 ++ bad :: moves2)) =
  dispatch chess_new chess_move getAnnotation state (MAKE_MOVES (moves1 ++ moves2)).
Proof.
  unfold dispatch, treeReducer. rewrite !makeMoves_app.
  destruct (makeMoves chess_new chess_move (set_dirty state true) moves1) as [s1| |];
    [|done..].
  cbn [Js.bind fst snd default from_option id]. intros [= ->].
  rewrite getNodeAtPath_ref. intros Hn Hrej. simpl. unfold makeMove.
  destruct (getRefAtPath (root s) (position s)) as [[[loc n']|]| |]; try done.
  simpl in Hn. injection Hn as ->. simpl. by rewrite Hrej.
Qed.

End Moves.

(** Scenario 1: "e4" on the default tree. *)
Lemma make_move_appends_child_witness :
  position (defaultTree None) = Z.of_nat <$> []
  ∧ nodeAt (root (defaultTree None)) [] = Some (defaultRoot None)
  ∧ chess_result Scenario.toy_new Scenario.toy_chess
      (fen (defaultRoot None)) (Algebraic "e4") =
      Played (mkMove "e4" "" "") (DEFAULT_POSITION +:+ " e4")
  ∧ ∃ state',
      dispatch Scenario.toy_new Scenario.toy_chess Scenario.toy_annotation (defaultTree None)
               (MAKE_MOVE (Algebraic "e4")) = Returns state'
      ∧ position state' = [0]
      ∧ getNodeAtPath (root state') (position state') =
          Returns (Some (createNode (DEFAULT_POSITION +:+ " e4")
                           (mkMove "e4" "" "") 1)).
Proof.
  do 3 (split; [reflexivity|]).
  destruct (make_move_appends_child Scenario.toy_new Scenario.toy_chess Scenario.toy_annotation
              (defaultTree None) [] (defaultRoot None) (Algebraic "e4")
              (mkMove "e4" "" "") (DEFAULT_POSITION +:+ " e4")
              eq_refl eq_refl eq_refl)
    as (state' & Hrun & _ & _ & Hpos & _ & Hget & _ & _).
  { intros c Hc. by apply elem_of_nil in Hc. }
  exists state'. split; [exact Hrun|]. split; [exact Hpos|exact Hget].
Defined.

(** "d4" on [root.children = [A, B]] selects B. *)
Lemma make_move_reuses_child_witness :
  position Scenario.two_lines = Z.of_nat <$> []
  ∧ nodeAt (root Scenario.two_lines) [] = Some (root Scenario.two_lines)
  ∧ Scenario.B ∈ children (root Scenario.two_lines)
  ∧ sameSan (mkMove "d4" "" "") Scenario.B = true
  ∧ ∃ state' i first,
      dispatch Scenario.toy_new Scenario.toy_chess Scenario.toy_annotation Scenario.two_lines
               (MAKE_MOVE (Algebraic "d4")) = Returns state'
      ∧ root state' = root Scenario.two_lines
      ∧ position state' = position Scenario.two_lines ++ [Z.of_nat i]
      ∧ children (root Scenario.two_lines) !! i = Some first
      ∧ getNodeAtPath (root state') (position state') = Returns (Some first).
Proof.
  split; [reflexivity|]. split; [reflexivity|].
  split; [right; left|]. split; [reflexivity|].
  destruct (make_move_reuses_child Scenario.toy_new Scenario.toy_chess Scenario.toy_annotation
              Scenario.two_lines [] (root Scenario.two_lines) (Algebraic "d4")
              (mkMove "d4" "" "") (DEFAULT_POSITION +:+ " d4") Scenario.B
              eq_refl eq_refl eq_refl ltac:(right; left) eq_refl)
    as (state' & i & first & Hrun & Hroot & _ & _ & Hpos & Hi & _ & _ & Hget).
  exists state', i, first. by repeat split.
Defined.

Lemma make_move_replay_witness :
  (let* s1 := dispatch Scenario.toy_new Scenario.toy_chess Scenario.toy_annotation
                (defaultTree None) (MAKE_MOVE (Algebraic "e4")) in
   let* s2 := dispatch Scenario.toy_new Scenario.toy_chess Scenario.toy_annotation s1
                GO_TO_PREVIOUS in
   dispatch Scenario.toy_new Scenario.toy_chess Scenario.toy_annotation s2
            (MAKE_MOVE (Algebraic "e4"))) =
  dispatch Scenario.toy_new Scenario.toy_chess Scenario.toy_annotation (defaultTree None)
           (MAKE_MOVE (Algebraic "e4")).
Proof.
  apply (make_move_replay Scenario.toy_new Scenario.toy_chess Scenario.toy_annotation
           (defaultTree None) [] (defaultRoot None) (Algebraic "e4")
           (mkMove "e4" "" "") (DEFAULT_POSITION +:+ " e4"));
    reflexivity.
Defined.

Lemma make_moves_skips_illegal_witness :
  chess_result Scenario.toy_new Scenario.toy_chess
    (DEFAULT_POSITION +:+ " e4") (Algebraic "Ke9") = Illegal
  ∧ dispatch Scenario.toy_new Scenario.toy_chess Scenario.toy_annotation (defaultTree None)
      (MAKE_MOVES (["e4"] ++ "Ke9" :: ["e5"])) =
    dispatch Scenario.toy_new Scenario.toy_chess Scenario.toy_annotation (defaultTree None)
      (MAKE_MOVES (["e4"] ++ ["e5"])).
Proof.
  split; [reflexivity|].
  eapply (make_moves_skips_illegal Scenario.toy_new Scenario.toy_chess Scenario.toy_annotation
            (defaultTree None) ["e4"] "Ke9" ["e5"]); reflexivity.
Defined.

(** ** Deletion of a resolved path *)

Lemma findIndex_from_location {A} (ploc : list nat) (arr : list A) : ∀ i k,
  (k < length arr)%nat →
  findIndex_from (fun j _ => bool_decide (ploc ++ [j] = ploc ++ [(i + k)%nat])) i arr
  = Z.of_nat (i + k).
Proof.
  induction arr as [|x arr IH]; intros i k Hk; simpl in *; [lia|].
  destruct k as [|k].
  - rewrite Nat.add_0_r. by rewrite bool_decide_eq_true_2.
  - rewrite bool_decide_eq_false_2.
    2:{ intros Heq. apply app_inv_head in Heq. injection Heq. lia. }
    replace (i + S k)%nat with (S i + k)%nat by lia. apply IH. lia.
Qed.

Lemma fmap_slice_init_snoc (loc : list nat) (k : nat) :
  slice_init (Z.of_nat <$> (loc ++ [k])) = Z.of_nat <$> loc.
Proof.
  rewrite fmap_app. change (Z.of_nat <$> [k]) with [Z.of_nat k].
  apply slice_init_snoc.
Qed.

Lemma deleteMove_resolved state ploc k parent child :
  nodeAt (root state) ploc = Some parent →
  children parent !! k = Some child →
  ∃ pos',
    deleteMove state (Z.of_nat <$> (ploc ++ [k])) =
    Returns (mkState
               (modifyAt (λ p, set_children p (delete k (children p)))
                         (root state) ploc)
               (headers state) pos' (dirty state)).
Proof.
  intros Hparent Hchild.
  assert (nodeAt (root state) (ploc ++ [k]) = Some child) as Hnode.
  { rewrite nodeAt_app, Hparent. simpl. by rewrite Hchild. }
  unfold deleteMove.
  rewrite (getRefAtPath_valid _ _ _ Hnode). cbn [Js.bind].
  rewrite fmap_slice_init_snoc, (getRefAtPath_valid _ _ _ Hparent). cbn [Js.bind].
  eexists. do 2 f_equal.
  apply (modifyAt_ext _ _ _ _ parent Hparent). f_equal.
  apply lookup_lt_Some in Hchild as Hlt.
  unfold findIndex.
  pose proof (findIndex_from_location ploc (children parent) 0 k Hlt) as Hfound.
  cbn [Nat.add] in Hfound. rewrite Hfound. by apply splice1_at.
Qed.

Section DeletionExtras.
Variable chess_new : string -> bool.
Variable chess_move : string -> MoveDescriptor -> option (Move * string).
Variable getAnnotation : Score -> Score -> string -> Annotation.

Lemma dispatch_DELETE_MOVE state path :
  dispatch chess_new chess_move getAnnotation state (DELETE_MOVE (Some path)) =
  deleteMove (set_dirty state true) path.
Proof.
  unfold dispatch, treeReducer.
  change (default (position (set_dirty state true)) (Some path)) with path.
  by destruct (deleteMove (set_dirty state true) path).
Qed.

(** X9: DELETE_MOVE at a path that resolves in full removes the addressed
    child, with its subtree, from the children of its parent: the children
    before it keep their index, the children after it move down by one, and
    every node outside the subtree of the parent keeps its fields and its
    number of children.  The headers are untouched. *)
Theorem delete_removes_addressed_child state ploc k parent child :
  nodeAt (root state) ploc = Some parent →
  children parent !! k = Some child →
  ∃ state' parent',
    dispatch chess_new chess_move getAnnotation state
             (DELETE_MOVE (Some (Z.of_nat <$> (ploc ++ [k])))) = Returns state'
    ∧ headers state' = headers state
    ∧ nodeAt (root state') ploc = Some parent'
    ∧ shallow parent' = shallow parent
    ∧ length (children parent') = (length (children parent) - 1)%nat
    ∧ (∀ j, (j < k)%nat → children parent' !! j = children parent !! j)
    ∧ (∀ j, (k <= j)%nat → children parent' !! j = children parent !! S j)
    ∧ ∀ other o, ¬ ploc `prefix_of` other → nodeAt (root state) other = Some o →
        ∃ o', nodeAt (root state') other = Some o'
              ∧ shallow o' = shallow o
              ∧ length (children o') = length (children o).
Proof.
  intros Hparent Hchild.
  destruct (deleteMove_resolved (set_dirty state true) ploc k parent child
              Hparent Hchild) as (pos' & Hrun).
  rewrite dispatch_DELETE_MOVE, Hrun.
  eexists. exists (set_children parent (delete k (children parent))).
  split; [reflexivity|]. cbn [root headers set_dirty].
  split; [done|].
  split; [by rewrite (nodeAt_modifyAt _ _ _ _ Hparent)|]. split; [done|].
  apply lookup_lt_Some in Hchild as Hlt.
  split; [cbn [children set_children]; rewrite length_delete by eauto; lia|].
  split; [intros j Hj; by apply list_lookup_delete_lt|].
  split; [intros j Hj; by apply list_lookup_delete_ge|].
  intros other o Hother Ho.
  by apply (nodeAt_modifyAt_other _ (root state) ploc other Hother).
Qed.

(** X10: deletion does not renumber the current path.  When a child is
    deleted that comes before the branch the current path runs through, and
    the current path goes deeper than that branch, the current path is left
    as it is, while the children after the deleted one have moved down: the
    index that selected the branch now selects its next sibling, or nothing
    when the branch was the last child. *)
Theorem delete_earlier_sibling_keeps_path state ploc j k below parent child :
  nodeAt (root state) ploc = Some parent →
  children parent !! j = Some child →
  (j < k)%nat → below ≠ [] →
  position state = Z.of_nat <$> (ploc ++ k :: below) →
  ∃ state',
    dispatch chess_new chess_move getAnnotation state
             (DELETE_MOVE (Some (Z.of_nat <$> (ploc ++ [j])))) = Returns state'
    ∧ position state' = position state
    ∧ nodeAt (root state') (ploc ++ [k]) = children parent !! S k.
Proof.
  intros Hparent Hchild Hjk Hbelow Hpos.
  assert (nodeAt (root state) (ploc ++ [j]) = Some child) as Hnode.
  { rewrite nodeAt_app, Hparent. simpl. by rewrite Hchild. }
  rewrite dispatch_DELETE_MOVE. unfold deleteMove. cbn [root set_dirty].
  rewrite (getRefAtPath_valid _ _ _ Hnode). cbn [Js.bind].
  rewrite fmap_slice_init_snoc, (getRefAtPath_valid _ _ _ Hparent).
  cbn [Js.bind].
  eexists. split; [reflexivity|]. cbn [position root set_dirty]. split.
  - unfold isPrefix. rewrite Hpos.
    rewrite bool_decide_eq_false_2.
    2:{ rewrite !fmap_app. intros Hpre%prefix_app_inv. simpl in Hpre.
        apply prefix_cons_inv_1 in Hpre. lia. }
    rewrite bool_decide_eq_true_2 by (rewrite fmap_app; apply prefix_app_r; done).
    rewrite bool_decide_eq_false_2; [done|].
    rewrite !length_fmap, !length_app. simpl. destruct below; [done|simpl; lia].
  - apply lookup_lt_Some in Hchild as Hlt. unfold findIndex.
    pose proof (findIndex_from_location ploc (children parent) 0 j Hlt) as Hfound.
    cbn [Nat.add] in Hfound. rewrite Hfound.
    rewrite (nodeAt_modifyAt_below _ _ _ _ _ Hparent).
    cbn [nodeAt children set_children].
    rewrite splice1_at by done. rewrite list_lookup_delete_ge by lia.
    by destruct (children parent !! S k).
Qed.

End DeletionExtras.

(** Deleting B at [[1]] from [root.children = [A, B]]. *)
Lemma delete_removes_addressed_child_witness :
  nodeAt (root Scenario.two_lines) [] = Some (root Scenario.two_lines)
  ∧ children (root Scenario.two_lines) !! 1%nat = Some Scenario.B
  ∧ ∃ state',
      dispatch Scenario.toy_new Scenario.toy_chess Scenario.toy_annotation Scenario.two_lines
               (DELETE_MOVE (Some [1])) = Returns state'
      ∧ children (root state') = [Scenario.A].
Proof.
  split; [reflexivity|]. split; [reflexivity|].
  destruct (delete_removes_addressed_child Scenario.toy_new Scenario.toy_chess Scenario.toy_annotation
              Scenario.two_lines [] 1 (root Scenario.two_lines) Scenario.B
              eq_refl eq_refl) as (state' & parent' & Hrun & _).
  exists state'. split; [exact Hrun|]. injection Hrun as <-. reflexivity.
Defined.

(** In the tree [deep] the root has one child, whose children are A1 and
    A2; the current path [[0, 1, 2]] runs through A2, and A1 is deleted. *)
Lemma delete_earlier_sibling_keeps_path_witness :
  position (set_position Scenario.deep [0; 1; 2]) = Z.of_nat <$> ([0%nat] ++ 1%nat :: [2%nat])
  ∧ ∃ state',
      dispatch Scenario.toy_new Scenario.toy_chess Scenario.toy_annotation
               (set_position Scenario.deep [0; 1; 2])
               (DELETE_MOVE (Some [0; 0])) = Returns state'
      ∧ position state' = [0; 1; 2]
      ∧ nodeAt (root state') [0%nat; 1%nat] = None.
Proof.
  split; [reflexivity|].
  destruct (delete_earlier_sibling_keeps_path Scenario.toy_new Scenario.toy_chess
              Scenario.toy_annotation (set_position Scenario.deep [0; 1; 2])
              [0%nat] 0 1 [2%nat]
              (set_children (Scenario.played "after e4" "e4" 1)
                            [Scenario.A1; Scenario.A2])
              Scenario.A1 eq_refl eq_refl ltac:(lia) ltac:(done) eq_refl)
    as (state' & Hrun & Hpos & Hnode).
  exists state'. split; [exact Hrun|]. split; [exact Hpos|exact Hnode].
Defined.

(** ** Promotion as the code performs it *)

Lemma reduceRight_from_zeros (k : nat) (i : Z) :
  reduceRight_from (fun acc v i => if bool_decide (v = 0) then acc else (v, i))
                   i (replicate k 0) (0, 0) = (0, 0).
Proof. revert i. induction k as [|k IH]; intros i; simpl; [done|]. apply IH. Qed.

Lemma reduceRight_from_first_nonzero (k : nat) (i v : Z) rest :
  v ≠ 0 →
  reduceRight_from (fun acc v i => if bool_decide (v = 0) then acc else (v, i))
                   i (replicate k 0 ++ v :: rest) (0, 0) = (v, i + Z.of_nat k).
Proof.
  intros Hv. revert i. induction k as [|k IH]; intros i; simpl.
  - rewrite bool_decide_eq_false_2 by done. f_equal. lia.
  - rewrite IH. f_equal. lia.
Qed.

Section PromotionExtras.
Variable chess_new : string -> bool.
Variable chess_move : string -> MoveDescriptor -> option (Move * string).
Variable getAnnotation : Score -> Score -> string -> Annotation.

Lemma dispatch_PROMOTE_VARIATION state path :
  dispatch chess_new chess_move getAnnotation state (PROMOTE_VARIATION path) =
  promoteVariation (set_dirty state true) path.
Proof.
  unfold dispatch, treeReducer.
  by destruct (promoteVariation (set_dirty state true) path).
Qed.

(** X11: promoting a path of first-child indices only changes nothing in
    the tree, the current path or the headers, whatever the length of the
    path and whether or not it resolves; the dirty flag is set. *)
Theorem promote_mainline_path_unchanged state k :
  dispatch chess_new chess_move getAnnotation state (PROMOTE_VARIATION (replicate k 0)) =
  Returns (mkState (root state) (headers state) (position state) true).
Proof.
  rewrite dispatch_PROMOTE_VARIATION. unfold promoteVariation, reduceRight.
  by rewrite reduceRight_from_zeros.
Qed.

(** X12: where promotion acts.  On a path made of [k >= 1] zeros, an index
    [v >= 1] and anything after it, with the chain of [k] first children
    present and [v] the index of a child of its last node, PROMOTE_VARIATION
    moves that child to the front of its siblings, which keep their order.
    The current path becomes the given path with [v] replaced by 0, and its
    first [k + 1] indices select the promoted child.  The node whose
    children are reordered is always a mainline node, and whatever the path
    holds after [v] is not looked at. *)
Theorem promote_off_mainline state (k : nat) v rest n c :
  (0 < k)%nat → 0 < v →
  nodeAt (root state) (replicate k 0%nat) = Some n →
  children n !! Z.to_nat v = Some c →
  ∃ state' n',
    dispatch chess_new chess_move getAnnotation state
             (PROMOTE_VARIATION (replicate k 0 ++ v :: rest)) = Returns state'
    ∧ headers state' = headers state
    ∧ position state' = replicate (S k) 0 ++ rest
    ∧ nodeAt (root state') (replicate k 0%nat) = Some n'
    ∧ shallow n' = shallow n
    ∧ children n' = c :: delete (Z.to_nat v) (children n)
    ∧ children n' ≡ₚ children n
    ∧ nodeAt (root state') (replicate (S k) 0%nat) = Some c.
Proof.
  intros Hk Hv Hn Hc.
  apply lookup_lt_Some in Hc as Hlt.
  rewrite dispatch_PROMOTE_VARIATION. unfold promoteVariation, reduceRight.
  rewrite reduceRight_from_first_nonzero by lia.
  rewrite bool_decide_eq_false_2 by lia.
  replace (0 + Z.of_nat k) with (Z.of_nat k) by lia.
  unfold slice_to. rewrite Nat2Z.id.
  rewrite take_app_length' by (by rewrite length_replicate).
  rewrite length_replicate, bool_decide_eq_false_2 by lia.
  cbn [root set_dirty].
  pose proof (getRefAtPath_valid _ _ _ Hn) as Href. rewrite zeros_Z in Href.
  rewrite Href. cbn [Js.bind].
  assert (splice1 v (children n) = ([c], delete (Z.to_nat v) (children n))) as Hsplice.
  { unfold splice1, splice_start. rewrite bool_decide_eq_false_2 by lia.
    replace (Z.to_nat (v `min` Z.of_nat (length (children n)))) with (Z.to_nat v)
      by lia.
    f_equal. by rewrite (drop_S _ c _ Hc). }
  rewrite Hsplice. cbn [fst snd lookup list_lookup].
  eexists. exists (set_children n (c :: delete (Z.to_nat v) (children n))).
  split; [reflexivity|]. cbn [root headers position set_dirty].
  split; [done|]. split.
  { replace k with (length (replicate k (0:Z)) + 0)%nat at 1
      by (rewrite length_replicate; lia).
    rewrite insert_app_r. change (<[0%nat:=0]> (v :: rest)) with ([0] ++ rest).
    rewrite app_assoc. f_equal. change [0] with (replicate 1 0).
    rewrite <- replicate_add. f_equal. lia. }
  assert (modifyAt
            (λ p, set_children p (c :: (splice1 v (children p)).2))
            (root state) (replicate k 0%nat) =
          modifyAt
            (λ p, set_children p (c :: delete (Z.to_nat v) (children n)))
            (root state) (replicate k 0%nat)) as ->.
  { apply (modifyAt_ext _ _ _ _ n Hn). by rewrite Hsplice. }
  split; [by rewrite (nodeAt_modifyAt _ _ _ _ Hn)|]. split; [done|].
  split; [done|]. split.
  - cbn [children set_children]. rewrite delete_take_drop.
    rewrite <- (take_drop_middle _ _ _ Hc) at 3.
    by rewrite Permutation_middle.
  - replace (replicate (S k) 0%nat) with (replicate k 0%nat ++ [0%nat]).
    2:{ change [0%nat] with (replicate 1 0%nat). rewrite <- replicate_add.
        f_equal. lia. }
    by rewrite (nodeAt_modifyAt_below _ _ _ _ _ Hn).
Qed.

End PromotionExtras.

(** In the tree [deep], promoting at [[0, 1, 2]] moves A2 before A1. *)
Lemma promote_off_mainline_witness :
  (0 < 1)%nat ∧ 0 < 1
  ∧ children (set_children (Scenario.played "after e4" "e4" 1)
                [Scenario.A1; Scenario.A2]) !! Z.to_nat 1 = Some Scenario.A2
  ∧ ∃ state',
      dispatch Scenario.toy_new Scenario.toy_chess Scenario.toy_annotation Scenario.deep
               (PROMOTE_VARIATION (replicate 1 0 ++ 1 :: [2])) = Returns state'
      ∧ position state' = [0; 0; 2]
      ∧ nodeAt (root state') [0%nat; 0%nat] = Some Scenario.A2.
Proof.
  split; [lia|]. split; [lia|]. split; [reflexivity|].
  destruct (promote_off_mainline Scenario.toy_new Scenario.toy_chess Scenario.toy_annotation
              Scenario.deep 1 1 [2]
              (set_children (Scenario.played "after e4" "e4" 1)
                            [Scenario.A1; Scenario.A2])
              Scenario.A2 ltac:(lia) ltac:(lia) eq_refl eq_refl)
    as (state' & n' & Hrun & _ & Hpos & _ & _ & _ & _ & Hc).
  exists state'. split; [exact Hrun|]. split; [exact Hpos|exact Hc].
Defined.

(** ** Edits of the selected node *)

(** An edit that keeps the children of a node changes that node alone. *)
Lemma modifyAt_local f node loc n other :
  (∀ x, children (f x) = children x) →
  nodeAt node loc = Some n → other ≠ loc →
  shallow <$> nodeAt (modifyAt f node loc) other = shallow <$> nodeAt node other.
Proof.
  intros Hf Hn Hother.
  destruct (decide (loc `prefix_of` other)) as [[below ->]|Hnp].
  - rewrite (nodeAt_modifyAt_below _ _ _ _ _ Hn), nodeAt_app, Hn. simpl.
    destruct below as [|j below]; [by rewrite app_nil_r in Hother|].
    simpl. by rewrite Hf.
  - destruct (nodeAt_modifyAt_other f node loc other Hnp) as [Hnone Hsome].
    destruct (nodeAt node other) as [m|] eqn:Hm.
    + destruct (Hsome m eq_refl) as (m' & -> & Hsh & _). simpl. by rewrite Hsh.
    + by rewrite (proj2 Hnone).
Qed.

Section Edits.
Variable chess_new : string -> bool.
Variable chess_move : string -> MoveDescriptor -> option (Move * string).
Variable getAnnotation : Score -> Score -> string -> Annotation.

Lemma dispatch_edit state action f :
  editOf action = Some f →
  dispatch chess_new chess_move getAnnotation state action =
  editCurrent f (set_dirty state true).
Proof.
  intros Hedit. unfold dispatch.
  destruct action; try done; injection Hedit as <-; unfold treeReducer;
    by destruct (editCurrent _ (set_dirty state true)).
Qed.

Lemma editOf_children action f n :
  editOf action = Some f → children (f n) = children n.
Proof.
  destruct action; try done; intros [= <-]; [|done..].
  unfold toggleAnnotation. by case_decide.
Qed.

(** X13: SET_ANNOTATION, SET_COMMENT and SET_SCORE change the selected node
    and nothing else.  When the current path resolves to a node, that node
    receives the edit (the toggled annotation, both representations of the
    comment, or the score) and keeps its children; the current path still
    resolves to it; every other node of the tree keeps all its fields; the
    headers and the current path are untouched and the dirty flag is set. *)
Theorem edit_selected_node_only state action f loc n :
  editOf action = Some f →
  getRefAtPath (root state) (position state) = Returns (Some (loc, n)) →
  ∃ state',
    dispatch chess_new chess_move getAnnotation state action = Returns state'
    ∧ headers state' = headers state
    ∧ position state' = position state
    ∧ dirty state' = true
    ∧ getNodeAtPath (root state') (position state') = Returns (Some (f n))
    ∧ nodeAt (root state') loc = Some (f n)
    ∧ children (f n) = children n
    ∧ ∀ other, other ≠ loc →
        shallow <$> nodeAt (root state') other = shallow <$> nodeAt (root state) other.
Proof.
  intros Hedit Href. rewrite (dispatch_edit _ _ _ Hedit). unfold editCurrent.
  cbn [root position set_dirty]. rewrite Href. cbn [Js.bind].
  eexists. split; [reflexivity|]. cbn [root headers position dirty set_root set_dirty].
  do 3 (split; [done|]).
  pose proof (editOf_children action f) as Hf.
  pose proof (getRefAtPath_nodeAt _ _ _ _ Href) as Hn.
  split. { rewrite getNodeAtPath_ref.
           by rewrite (getRefAtPath_modifyAt f _ _ _ _ (λ x, Hf x Hedit) Href). }
  split; [by apply nodeAt_modifyAt|]. split; [by apply Hf|].
  intros other Hother. apply (modifyAt_local f _ loc n); [|done..].
  intros x. by apply Hf.
Qed.

(** X14: the annotation toggle has period two only from the annotation
    itself.  Two successive SET_ANNOTATION with the same annotation [a]
    leave on the selected node the annotation it had when that was [a], and
    no annotation when it had another one; nothing else in the state
    differs from the state after one such action. *)
Theorem set_annotation_twice state a loc n :
  getRefAtPath (root state) (position state) = Returns (Some (loc, n)) →
  (let* s1 := dispatch chess_new chess_move getAnnotation state (SET_ANNOTATION a) in
   dispatch chess_new chess_move getAnnotation s1 (SET_ANNOTATION a)) =
  Returns (mkState
             (modifyAt
                (fun x => set_annotation x
                            (if decide (annotation n = a) then a
                             else Annotation_None))
                (root state) loc)
             (headers state) (position state) true).
Proof.
  intros Href.
  rewrite (dispatch_edit state (SET_ANNOTATION a) (toggleAnnotation a) eq_refl).
  unfold editCurrent at 1. cbn [root position set_dirty]. rewrite Href.
  cbn [Js.bind].
  rewrite (dispatch_edit _ (SET_ANNOTATION a) (toggleAnnotation a) eq_refl).
  unfold editCurrent. cbn [root position set_dirty set_root].
  assert (∀ x, children (toggleAnnotation a x) = children x) as Hf.
  { intros x. unfold toggleAnnotation. by case_decide. }
  rewrite (getRefAtPath_modifyAt _ _ _ _ _ Hf Href). cbn [Js.bind].
  rewrite modifyAt_modifyAt. unfold set_root, set_dirty.
  cbn [root headers position dirty]. do 2 f_equal.
  apply getRefAtPath_nodeAt in Href.
  apply (modifyAt_ext _ _ _ _ n Href). unfold toggleAnnotation. simpl.
  destruct (decide (annotation n = a)) as [Heq|Hne]; simpl.
  - destruct (decide (Annotation_None = a)) as [<-|?]; simpl; [|done].
    by destruct n.
  - by rewrite decide_True.
Qed.

End Edits.

Lemma edit_selected_node_only_witness :
  editOf (SET_COMMENT "<p>main line</p>" "main line") =
    Some (fun n => set_comment n "<p>main line</p>" "main line")
  ∧ getRefAtPath (root (set_position Scenario.two_lines [0]))
                 (position (set_position Scenario.two_lines [0])) =
      Returns (Some ([0%nat], Scenario.A))
  ∧ ∃ state',
      dispatch Scenario.toy_new Scenario.toy_chess Scenario.toy_annotation
               (set_position Scenario.two_lines [0])
               (SET_COMMENT "<p>main line</p>" "main line") = Returns state'
      ∧ getNodeAtPath (root state') (position state') =
          Returns (Some (set_comment Scenario.A "<p>main line</p>" "main line"))
      ∧ shallow <$> nodeAt (root state') [1%nat] = Some (shallow Scenario.B).
Proof.
  split; [reflexivity|]. split; [reflexivity|].
  destruct (edit_selected_node_only Scenario.toy_new Scenario.toy_chess Scenario.toy_annotation
              (set_position Scenario.two_lines [0])
              (SET_COMMENT "<p>main line</p>" "main line")
              (fun n => set_comment n "<p>main line</p>" "main line")
              [0%nat] Scenario.A eq_refl eq_refl)
    as (state' & Hrun & _ & _ & _ & Hget & _ & _ & Hother).
  exists state'. split; [exact Hrun|]. split; [exact Hget|].
  apply (Hother [1%nat]). discriminate.
Defined.

Lemma set_annotation_twice_witness :
  getRefAtPath (root (defaultTree None)) (position (defaultTree None)) =
    Returns (Some ([], defaultRoot None))
  ∧ (let* s1 := dispatch Scenario.toy_new Scenario.toy_chess Scenario.toy_annotation
                  (defaultTree None) (SET_ANNOTATION Annotation_Blunder) in
     dispatch Scenario.toy_new Scenario.toy_chess Scenario.toy_annotation s1
              (SET_ANNOTATION Annotation_Blunder)) =
    Returns (mkState (defaultRoot None) (defaultHeaders None) [] true).
Proof.
  split; [reflexivity|].
  apply (set_annotation_twice Scenario.toy_new Scenario.toy_chess Scenario.toy_annotation
           (defaultTree None) Annotation_Blunder [] (defaultRoot None)).
  reflexivity.
Defined.

(** ** One toggle of a board marker *)

Lemma toggleShape_cases m l :
  ((∀ s, s ∈ l → squares s ≠ squares m) ∧ toggleShape m l = l ++ [m])
  ∨ (∃ pre old post,
       l = pre ++ old :: post
       ∧ (∀ s, s ∈ pre → squares s ≠ squares m)
       ∧ squares old = squares m
       ∧ toggleShape m l = pre ++ post).
Proof.
  induction l as [|x l IH].
  - left. split; [by intros s ?%elem_of_nil|done].
  - destruct (decide (squares x = squares m)) as [Hx|Hx].
    + right. exists [], x, l. split; [done|]. split; [by intros s ?%elem_of_nil|].
      split; [done|]. apply (toggleShape_first m [] x l); [|done].
      by intros s ?%elem_of_nil.
    + destruct IH as [[Habs _]|(pre & old & post & -> & Hpre & Hold & _)].
      * left. assert (∀ s, s ∈ x :: l → squares s ≠ squares m) as Hall.
        { intros s [->|Hs]%elem_of_cons; auto. }
        split; [done|]. by apply toggleShape_absent.
      * right. exists (x :: pre), old, post. split; [done|].
        assert (∀ s, s ∈ x :: pre → squares s ≠ squares m) as Hall.
        { intros s [->|Hs]%elem_of_cons; auto. }
        split; [done|]. split; [done|].
        by apply (toggleShape_first m (x :: pre) old post).
Qed.

Section MarkerExtras.
Variable chess_new : string -> bool.
Variable chess_move : string -> MoveDescriptor -> option (Move * string).
Variable getAnnotation : Score -> Score -> string -> Annotation.

(** X15: one SET_SHAPES on a node whose markers are deduplicated by
    origin/destination pair.  The pair of the first marker of the batch is
    on the node afterwards exactly when it was not before, every marker with
    another pair is kept, the markers stay deduplicated, and the node keeps
    its other fields and its children; the rest of the batch is ignored and
    the current path still resolves to the node. *)
Theorem toggle_marker_once state loc node m rest :
  getRefAtPath (root state) (position state) = Returns (Some (loc, node)) →
  NoDup (squares <$> shapes node) →
  ∃ state' node',
    dispatch chess_new chess_move getAnnotation state (SET_SHAPES (m :: rest)) = Returns state'
    ∧ position state' = position state
    ∧ headers state' = headers state
    ∧ getNodeAtPath (root state') (position state') = Returns (Some node')
    ∧ set_shapes node' (shapes node) = node
    ∧ NoDup (squares <$> shapes node')
    ∧ (squares m ∈ squares <$> shapes node' ↔ squares m ∉ squares <$> shapes node)
    ∧ ∀ s, squares s ≠ squares m → (s ∈ shapes node' ↔ s ∈ shapes node).
Proof.
  intros Href Hnd. unfold dispatch, treeReducer.
  rewrite (setShapes_toggle (set_dirty state true) loc node m rest Href).
  cbn [Js.bind fst snd default from_option id].
  eexists. exists (set_shapes node (toggleShape m (shapes node))).
  split; [reflexivity|]. cbn [root headers position set_root set_dirty].
  do 2 (split; [done|]). split.
  { rewrite getNodeAtPath_ref.
    by rewrite (getRefAtPath_modifyAt
                  (λ x, set_shapes x (toggleShape m (shapes node)))
                  _ _ _ _ (λ x, eq_refl) Href). }
  split; [by destruct node|]. cbn [shapes set_shapes].
  split; [by apply toggleShape_NoDup|].
  destruct (toggleShape_cases m (shapes node))
    as [[Habs ->]|(pre & old & post & Hl & Hpre & Hold & ->)].
  - split.
    + split.
      * intros _ (s & Heq & Hs)%list_elem_of_fmap. by apply (Habs s).
      * intros _. rewrite fmap_app. apply elem_of_app. right. left.
    + intros s Hs. rewrite elem_of_app, list_elem_of_singleton.
      split; [|by left]. intros [?|Heq]; [done|]. by subst s.
  - rewrite Hl in Hnd |- *. rewrite fmap_app, fmap_cons in Hnd.
    apply NoDup_app in Hnd as (_ & _ & Hpost). apply NoDup_cons in Hpost as [Hpost _].
    split.
    + split.
      * intros (s & Heq & Hs)%list_elem_of_fmap. exfalso.
        apply elem_of_app in Hs as [Hs|Hs]; [by apply (Hpre s)|].
        apply Hpost. rewrite Hold, Heq. by apply list_elem_of_fmap_2.
      * intros Hnot. exfalso. apply Hnot. rewrite fmap_app, fmap_cons, Hold.
        apply elem_of_app. right. left.
    + intros s Hs. rewrite !elem_of_app, elem_of_cons.
      split; [tauto|]. intros [?|[Heq|?]]; [by left|by subst s|by right].
Qed.

End MarkerExtras.

Lemma toggle_marker_once_witness :
  getRefAtPath (root Scenario.marked) (position Scenario.marked) =
    Returns (Some ([], root Scenario.marked))
  ∧ NoDup (squares <$> shapes (root Scenario.marked))
  ∧ ∃ state',
      dispatch Scenario.toy_new Scenario.toy_chess Scenario.toy_annotation Scenario.marked
               (SET_SHAPES [Scenario.red]) = Returns state'
      ∧ shapes (root state') = [].
Proof.
  split; [reflexivity|].
  assert (NoDup (squares <$> shapes (root Scenario.marked))) as Hnd.
  { apply NoDup_singleton. }
  split; [exact Hnd|].
  destruct (toggle_marker_once Scenario.toy_new Scenario.toy_chess Scenario.toy_annotation
              Scenario.marked [] (root Scenario.marked) Scenario.red []
              eq_refl Hnd) as (state' & node' & Hrun & _).
  exists state'. split; [exact Hrun|]. injection Hrun as <-. reflexivity.
Defined.

(** ** What each class of action leaves alone *)

Section Frames.
Variable chess_new : string -> bool.
Variable chess_move : string -> MoveDescriptor -> option (Move * string).
Variable getAnnotation : Score -> Score -> string -> Annotation.

Lemma makeMove_frame state mv state' :
  makeMove chess_new chess_move state mv = Returns state' →
  headers state' = headers state ∧ dirty state' = dirty state.
Proof.
  unfold makeMove.
  destruct (getRefAtPath (root state) (position state)) as [[[loc n]|]| |];
    simpl; try done; [|by intros [= <-]].
  destruct (chess_result chess_new chess_move (fen n) mv) as [| |m f'];
    [done|by intros [= <-]|].
  case_bool_decide; by intros [= <-].
Qed.

Lemma makeMoves_frame moves : ∀ state state',
  makeMoves chess_new chess_move state moves = Returns state' →
  headers state' = headers state ∧ dirty state' = dirty state.
Proof.
  induction moves as [|mv moves IH]; intros state state'; simpl.
  - by intros [= <-].
  - destruct (makeMove chess_new chess_move state (Algebraic mv)) as [s| |] eqn:Hs;
      simpl; try done.
    intros Hrest. destruct (IH _ _ Hrest) as [-> ->]. by eapply makeMove_frame.
Qed.

Lemma deleteMove_frame state path state' :
  deleteMove state path = Returns state' →
  headers state' = headers state ∧ dirty state' = dirty state.
Proof.
  unfold deleteMove.
  destruct (getRefAtPath (root state) path) as [[[nloc n]|]| |];
    simpl; try done; [|by intros [= <-]].
  destruct (getRefAtPath (root state) (slice_init path)) as [[[ploc p]|]| |];
    simpl; try done; by intros [= <-].
Qed.

Lemma promoteVariation_frame state path state' :
  promoteVariation state path = Returns state' →
  headers state' = headers state ∧ dirty state' = dirty state.
Proof.
  unfold promoteVariation. destruct (reduceRight _ _ path) as [v i].
  case_bool_decide; [by intros [= <-]|]. case_bool_decide; [by intros [= <-]|].
  destruct (getRefAtPath (root state) (slice_to i path)) as [[[loc n]|]| |];
    simpl; try done; [|by intros [= <-]].
  destruct (take 1 _ !! 0%nat); [|done]. by intros [= <-].
Qed.

Lemma editCurrent_frame f state state' :
  editCurrent f state = Returns state' →
  headers state' = headers state ∧ dirty state' = dirty state
  ∧ position state' = position state.
Proof.
  unfold editCurrent.
  destruct (getRefAtPath (root state) (position state)) as [[[loc n]|]| |];
    simpl; try done; by intros [= <-].
Qed.

Lemma setShapes_frame state batch state' :
  setShapes state batch = Returns state' →
  headers state' = headers state ∧ dirty state' = dirty state
  ∧ position state' = position state.
Proof.
  unfold setShapes.
  destruct (getRefAtPath (root state) (position state)) as [[[loc n]|]| |];
    simpl; try done; [|by intros [= <-]].
  destruct (findIndexM _ (shapes n)) as [index| |]; simpl; try done.
  case_bool_decide; [by intros [= <-]|].
  destruct (Js.index batch 0); [|done]. by intros [= <-].
Qed.

Lemma addAnalysis_frame state analysis :
  headers (addAnalysis getAnnotation state analysis) = headers state
  ∧ dirty (addAnalysis getAnnotation state analysis) = dirty state
  ∧ position (addAnalysis getAnnotation state analysis) = position state.
Proof. unfold addAnalysis. by destruct (children (root state)). Qed.

(** X16: the frame of the dispatcher.  Whenever an action returns, a
    navigation action has changed at most the current path; SET_OUTCOME,
    for which the switch has no case, has changed nothing at all; SAVE has
    cleared the dirty flag and changed nothing else; a header action has set
    the dirty flag and left the tree and the current path alone; every other
    in-place action has set the dirty flag and left the headers alone. *)
Theorem dispatch_frame state action state' :
  dispatch chess_new chess_move getAnnotation state action = Returns state' →
  match actionClass action with
  | Navigation =>
      root state' = root state ∧ headers state' = headers state
      ∧ dirty state' = dirty state
  | Ignored => state' = state
  | SaveMarker =>
      root state' = root state ∧ headers state' = headers state
      ∧ position state' = position state ∧ dirty state' = false
  | HeaderEdit =>
      root state' = root state ∧ position state' = position state
      ∧ dirty state' = true
  | TreeEdit => headers state' = headers state ∧ dirty state' = true
  | Replacement => True
  end.
Proof.
  unfold dispatch, treeReducer.
  destruct action as [|payload| |payload|payload|payload|payload|payload| | | |
                      |payload|payload|payload|html text|payload|payload
                      |payload|payload|payload|payload];
    cbn [actionClass]; try done;
    try (intros [= <-]; done).
  - destruct (makeMove chess_new chess_move (set_dirty state true) payload) as [s| |] eqn:Hs;
      simpl; try done. intros [= <-]. by apply makeMove_frame in Hs as [-> ->].
  - destruct (makeMoves chess_new chess_move (set_dirty state true) payload) as [s| |] eqn:Hs;
      simpl; try done. intros [= <-]. by apply makeMoves_frame in Hs as [-> ->].
  - destruct (getNodeAtPath (root state) (position state)) as [[n|]| |];
      simpl; try done; [|by intros [= <-]].
    case_bool_decide; by intros [= <-].
  - case_bool_decide; by intros [= <-].
  - destruct (deleteMove (set_dirty state true) _) as [s| |] eqn:Hs;
      simpl; try done. intros [= <-]. by apply deleteMove_frame in Hs as [-> ->].
  - destruct (editCurrent _ (set_dirty state true)) as [s| |] eqn:Hs;
      simpl; try done. intros [= <-]. by apply editCurrent_frame in Hs as (-> & -> & _).
  - destruct (editCurrent _ (set_dirty state true)) as [s| |] eqn:Hs;
      simpl; try done. intros [= <-]. by apply editCurrent_frame in Hs as (-> & -> & _).
  - destruct (editCurrent _ (set_dirty state true)) as [s| |] eqn:Hs;
      simpl; try done. intros [= <-]. by apply editCurrent_frame in Hs as (-> & -> & _).
  - destruct (setShapes (set_dirty state true) payload) as [s| |] eqn:Hs;
      simpl; try done. intros [= <-]. by apply setShapes_frame in Hs as (-> & -> & _).
  - simpl. intros [= <-].
    by destruct (addAnalysis_frame (set_dirty state true) payload) as (-> & -> & _).
  - destruct (promoteVariation (set_dirty state true) payload) as [s| |] eqn:Hs;
      simpl; try done. intros [= <-].
    by apply promoteVariation_frame in Hs as [-> ->].
Qed.

End Frames.

(** GO_TO_NEXT on [root.children = [A, B]] moves the current path only. *)
Lemma dispatch_frame_witness :
  dispatch Scenario.toy_new Scenario.toy_chess Scenario.toy_annotation Scenario.two_lines
           GO_TO_NEXT = Returns (set_position Scenario.two_lines [0])
  ∧ root (set_position Scenario.two_lines [0]) = root Scenario.two_lines
  ∧ headers (set_position Scenario.two_lines [0]) = headers Scenario.two_lines
  ∧ dirty (set_position Scenario.two_lines [0]) = dirty Scenario.two_lines.
Proof.
  split; [reflexivity|].
  exact (dispatch_frame Scenario.toy_new Scenario.toy_chess Scenario.toy_annotation
           Scenario.two_lines GO_TO_NEXT (set_position Scenario.two_lines [0])
           eq_refl).
Defined.

(** ** The current path stays a valid index chain *)

Lemma nodeAt_prefix node l1 l2 :
  is_Some (nodeAt node (l1 ++ l2)) → is_Some (nodeAt node l1).
Proof.
  rewrite nodeAt_app. destruct (nodeAt node l1); [by eauto|]. by intros [? ?].
Qed.

Section Selection.
Variable chess_new : string -> bool.
Variable chess_move : string -> MoveDescriptor -> option (Move * string).
Variable getAnnotation : Score -> Score -> string -> Annotation.

Lemma resolvesInFull_modifyAt state loc n f :
  position state = Z.of_nat <$> loc →
  nodeAt (root state) loc = Some n →
  resolvesInFull (set_root state (modifyAt f (root state) loc)).
Proof.
  intros Hpos Hn. exists loc. split; [done|]. simpl.
  rewrite (nodeAt_modifyAt _ _ _ _ Hn). by eauto.
Qed.

Lemma makeMove_resolves state mv state' :
  resolvesInFull state →
  makeMove chess_new chess_move state mv = Returns state' → resolvesInFull state'.
Proof.
  intros (loc & Hpos & [n Hn]).
  destruct (chess_result chess_new chess_move (fen n) mv) as [| |m newFen] eqn:Hlegal.
  - pose proof (getRefAtPath_valid _ _ _ Hn) as Href. rewrite <- Hpos in Href.
    unfold makeMove. rewrite Href. simpl. by rewrite Hlegal.
  - pose proof (getRefAtPath_valid _ _ _ Hn) as Href. rewrite <- Hpos in Href.
    unfold makeMove. rewrite Href. simpl. rewrite Hlegal.
    intros [= <-]. by exists loc; eauto.
  - rewrite (makeMove_valid chess_new chess_move state loc n mv m newFen Hpos Hn Hlegal).
    intros [= <-]. case_bool_decide as Hfound.
    + destruct (findIndex_from_found _ 0 _ Hfound) as (k & c & Hk & Hc & _).
      unfold findIndex. rewrite Hk. exists (loc ++ [k]). simpl. split.
      * by rewrite Hpos, fmap_app.
      * rewrite nodeAt_app, Hn. simpl. rewrite Hc. by eauto.
    + exists (loc ++ [length (children n)]). simpl. split.
      * by rewrite Hpos, fmap_app.
      * rewrite (nodeAt_modifyAt_below _ _ _ _ _ Hn). simpl.
        rewrite lookup_app_r, Nat.sub_diag by done. simpl. by eauto.
Qed.

Lemma makeMoves_resolves moves : ∀ state state',
  resolvesInFull state →
  makeMoves chess_new chess_move state moves = Returns state' → resolvesInFull state'.
Proof.
  induction moves as [|mv moves IH]; intros state state' Hstate; simpl.
  - by intros [= <-].
  - destruct (makeMove chess_new chess_move state (Algebraic mv)) as [s| |] eqn:Hs;
      simpl; try done.
    apply IH. by eapply makeMove_resolves.
Qed.

Lemma deleteMove_selected_resolves state :
  resolvesInFull state →
  ∃ state', deleteMove state (position state) = Returns state'
            ∧ resolvesInFull state'.
Proof.
  intros (loc & Hpos & [n Hn]).
  pose proof (getRefAtPath_valid _ _ _ Hn) as Href. rewrite <- Hpos in Href.
  unfold deleteMove. rewrite Href. cbn [Js.bind].
  assert (isPrefix (position state) (position state) = true) as Hself.
  { by apply bool_decide_eq_true_2. }
  destruct (decide (loc = [])) as [->|Hne].
  - rewrite Hpos. change (slice_init (Z.of_nat <$> [])) with (@nil Z).
    cbn [getRefAtPath Js.bind]. eexists. split; [reflexivity|].
    exists []. split; [by rewrite <- Hpos, Hself|]. simpl. by eauto.
  - destruct (exists_last Hne) as (ploc & k & ->).
    destruct (nodeAt (root state) ploc) as [parent|] eqn:Hparent.
    2:{ rewrite nodeAt_app, Hparent in Hn. done. }
    assert (slice_init (position state) = Z.of_nat <$> ploc) as Hinit.
    { rewrite Hpos. apply fmap_slice_init_snoc. }
    rewrite Hinit, (getRefAtPath_valid _ _ _ Hparent). cbn [Js.bind].
    eexists. split; [reflexivity|]. rewrite Hself.
    exists ploc. simpl. split; [done|].
    rewrite (nodeAt_modifyAt _ _ _ _ Hparent). by eauto.
Qed.

Lemma addAnalysis_is_Some state analysis loc :
  is_Some (nodeAt (root state) loc) →
  is_Some (nodeAt (root (addAnalysis getAnnotation state analysis)) loc).
Proof.
  unfold addAnalysis. destruct (children (root state)) as [|cur others] eqn:Hc;
    [done|].
  destruct loc as [|j loc]; [by eauto|]. simpl. rewrite Hc.
  destruct j as [|j]; simpl; [|done].
  intros [n Hn].
  destruct (addAnalysis_loop_nodeAt getAnnotation analysis loc 0 cur n Hn)
    as (n' & -> & _). by eauto.
Qed.

(** X17: a current path that is a chain of valid child indices stays one.
    From a state whose current path selects a node without fallback, every
    action that takes the path from the state (all but SET_STATE,
    GO_TO_MOVE, PROMOTE_VARIATION and DELETE_MOVE with a path of its own)
    returns, when it returns, a state whose current path again selects a
    node without fallback. *)
Theorem selection_stays_resolved state action state' :
  resolvesInFull state → keepsSelection action →
  dispatch chess_new chess_move getAnnotation state action = Returns state' →
  resolvesInFull state'.
Proof.
  intros Hstate Hkeeps.
  assert (resolvesInFull (set_dirty state true)) as Hdirty.
  { destruct Hstate as (loc & Hpos & Hn). by exists loc. }
  pose proof Hstate as (loc & Hpos & [n Hn]).
  unfold dispatch, treeReducer.
  destruct action as [|payload| |payload|payload|payload|payload|payload| | | |
                      |payload|[payload|]|payload|html text|payload|payload
                      |payload|payload|payload|payload];
    try done; cbn [Js.bind fst snd default from_option id].
  - intros [= <-]. by exists loc; eauto.
  - intros [= <-]. by exists []; eauto.
  - intros [= <-]. by exists loc; eauto.
  - intros [= <-]. by exists loc; eauto.
  - intros [= <-]. by exists loc; eauto.
  - destruct (makeMove chess_new chess_move (set_dirty state true) payload)
      as [s| |] eqn:Hs; simpl; try done.
    intros [= <-]. by apply (makeMove_resolves _ payload s Hdirty).
  - destruct (makeMoves chess_new chess_move (set_dirty state true) payload)
      as [s| |] eqn:Hs; simpl; try done.
    intros [= <-]. by apply (makeMoves_resolves payload _ s Hdirty).
  - intros [= <-]. by exists []; eauto.
  - intros [= <-]. destruct (countMainPly_leaf (root state)) as (leaf & Hleaf & _).
    exists (replicate (countMainPly (root state)) 0%nat). simpl.
    split; [by rewrite zeros_Z|by eauto].
  - rewrite Hpos, (getNodeAtPath_valid _ _ _ Hn). cbn [Js.bind].
    case_bool_decide as Hchildren; intros [= <-]; [|by exists loc; eauto].
    exists (loc ++ [0%nat]). simpl. split; [by rewrite fmap_app|].
    rewrite nodeAt_app, Hn. simpl.
    destruct (children n); [simpl in Hchildren; lia|by eauto].
  - case_bool_decide as Hlen; intros [= <-]; [|by exists loc; eauto].
    destruct (decide (loc = [])) as [->|Hne]; [by rewrite Hpos in Hlen|].
    destruct (exists_last Hne) as (ploc & k & ->).
    exists ploc. simpl. split; [by rewrite Hpos, fmap_slice_init_snoc|].
    apply (nodeAt_prefix _ ploc [k]). by eauto.
  - destruct (deleteMove_selected_resolves _ Hdirty) as (s & Hs & Hres).
    cbn [position set_dirty] in Hs. cbn [position set_dirty]. rewrite Hs.
    by intros [= <-].
  - unfold editCurrent. cbn [root position set_dirty].
    rewrite Hpos, (getRefAtPath_valid _ _ _ Hn). cbn [Js.bind]. intros [= <-].
    by apply (resolvesInFull_modifyAt (set_dirty state true) loc n).
  - unfold editCurrent. cbn [root position set_dirty].
    rewrite Hpos, (getRefAtPath_valid _ _ _ Hn). cbn [Js.bind]. intros [= <-].
    by apply (resolvesInFull_modifyAt (set_dirty state true) loc n).
  - intros [= <-]. by exists []; eauto.
  - unfold editCurrent. cbn [root position set_dirty].
    rewrite Hpos, (getRefAtPath_valid _ _ _ Hn). cbn [Js.bind]. intros [= <-].
    by apply (resolvesInFull_modifyAt (set_dirty state true) loc n).
  - intros [= <-]. by exists loc; eauto.
  - unfold setShapes. cbn [root position set_dirty].
    rewrite Hpos, (getRefAtPath_valid _ _ _ Hn). cbn [Js.bind].
    destruct (findIndexM _ (shapes n)) as [index| |]; cbn [Js.bind]; try done.
    case_bool_decide.
    + intros [= <-]. by apply (resolvesInFull_modifyAt (set_dirty state true) loc n).
    + destruct (Js.index payload 0); [|done]. intros [= <-].
      by apply (resolvesInFull_modifyAt (set_dirty state true) loc n).
  - intros [= <-]. exists loc.
    destruct (addAnalysis_frame getAnnotation (set_dirty state true) payload)
      as (_ & _ & ->).
    split; [done|]. apply addAnalysis_is_Some. simpl. by eauto.
Qed.

End Selection.

(** From the default tree, "e4" selects the new child. *)
Lemma selection_stays_resolved_witness :
  resolvesInFull (defaultTree None)
  ∧ keepsSelection (MAKE_MOVE (Algebraic "e4"))
  ∧ ∃ state',
      dispatch Scenario.toy_new Scenario.toy_chess Scenario.toy_annotation (defaultTree None)
               (MAKE_MOVE (Algebraic "e4")) = Returns state'
      ∧ resolvesInFull state'.
Proof.
  assert (resolvesInFull (defaultTree None)) as Hstart.
  { exists []. split; [reflexivity|]. by eexists. }
  split; [exact Hstart|]. split; [exact I|].
  eexists. split; [reflexivity|].
  eapply (selection_stays_resolved Scenario.toy_new Scenario.toy_chess Scenario.toy_annotation
            (defaultTree None) (MAKE_MOVE (Algebraic "e4")));
    [exact Hstart|exact I|reflexivity].
Defined.

(** ** Ply indices *)

Lemma plyConsistent_node r :
  plyConsistent r ↔
  ∀ c, c ∈ children r → halfMoves c = halfMoves r + 1 ∧ plyConsistent c.
Proof.
  split.
  - intros Hr c (i & Hi)%list_elem_of_lookup_1.
    assert (halfMoves c = halfMoves r + 1) as Hc.
    { rewrite (Hr [i] c); [simpl; lia|]. simpl. by rewrite Hi. }
    split; [done|]. intros loc n Hn.
    rewrite (Hr (i :: loc) n); [simpl; lia|]. simpl. by rewrite Hi.
  - intros Hchildren [|i loc] n; simpl.
    + intros [= ->]. lia.
    + destruct (children r !! i) as [c|] eqn:Hi; [|done]. intros Hn.
      destruct (Hchildren c) as [Hc Hsub]; [by eapply list_elem_of_lookup_2|].
      rewrite (Hsub loc n Hn). lia.
Qed.

Lemma plyConsistent_sub r loc n :
  plyConsistent r → nodeAt r loc = Some n → plyConsistent n.
Proof.
  intros Hr Hn below m Hm.
  rewrite (Hr (loc ++ below) m), (Hr loc n Hn).
  - rewrite length_app. lia.
  - by rewrite nodeAt_app, Hn.
Qed.

Lemma halfMoves_modifyAt f r loc n :
  nodeAt r loc = Some n → halfMoves (f n) = halfMoves n →
  halfMoves (modifyAt f r loc) = halfMoves r.
Proof.
  destruct loc as [|i loc]; simpl.
  - by intros [= ->].
  - by destruct (children r !! i).
Qed.

(** An edit that leaves the edited node consistent leaves the tree so. *)
Lemma plyConsistent_modifyAt f loc : ∀ r n,
  plyConsistent r → nodeAt r loc = Some n →
  halfMoves (f n) = halfMoves n → plyConsistent (f n) →
  plyConsistent (modifyAt f r loc).
Proof.
  induction loc as [|i loc IH]; intros r n Hr Hn Hhm Hfn.
  - simpl in *. by injection Hn as ->.
  - simpl in *. destruct (children r !! i) as [c|] eqn:Hi; [|done].
    apply plyConsistent_node. cbn [children halfMoves set_children].
    intros c' (j & Hj)%list_elem_of_lookup_1.
    pose proof (proj1 (plyConsistent_node r) Hr) as Hchildren.
    destruct (decide (i = j)) as [<-|Hij].
    + apply lookup_lt_Some in Hi as Hlt.
      rewrite list_lookup_insert_eq in Hj by done. injection Hj as <-.
      destruct (Hchildren c) as [Hc Hsub]; [by eapply list_elem_of_lookup_2|].
      split; [by rewrite (halfMoves_modifyAt f c loc n Hn Hhm)|].
      by apply (IH c n).
    + rewrite list_lookup_insert_ne in Hj by done.
      apply Hchildren. by eapply list_elem_of_lookup_2.
Qed.

Lemma plyConsistent_children r cs :
  plyConsistent r → (∀ c, c ∈ cs → c ∈ children r) →
  plyConsistent (set_children r cs).
Proof.
  intros Hr Hsub. apply plyConsistent_node. simpl. intros c Hc.
  by apply (proj1 (plyConsistent_node r) Hr), Hsub.
Qed.

Lemma halfMoves_shallow n : halfMoves (shallow n) = halfMoves n.
Proof. by destruct n. Qed.

Lemma plyConsistent_leaf r : children r = [] → plyConsistent r.
Proof.
  intros Hr. apply plyConsistent_node. rewrite Hr. by intros c ?%elem_of_nil.
Qed.

Section Ply.
Variable chess_new : string -> bool.
Variable chess_move : string -> MoveDescriptor -> option (Move * string).
Variable getAnnotation : Score -> Score -> string -> Annotation.

(** One move uses up one ply of the room the indices have. *)
Lemma makeMove_ply k state mv state' :
  0 <= k →
  plyConsistent (root state) → pliesWithin (k + 1) (root state) →
  makeMove chess_new chess_move state mv = Returns state' →
  plyConsistent (root state') ∧ pliesWithin k (root state').
Proof.
  intros Hk Hr Hroom.
  assert (pliesWithin k (root state)) as Hless.
  { eapply AllNodes_impl; [|exact Hroom]. simpl. lia. }
  unfold makeMove.
  destruct (getRefAtPath (root state) (position state)) as [[[loc n]|]| |] eqn:Href;
    simpl; try done; [|by intros [= <-]].
  apply getRefAtPath_nodeAt in Href.
  destruct (chess_result chess_new chess_move (fen n) mv) as [| |m f'];
    [done|by intros [= <-]|].
  case_bool_decide; intros [= <-]; [done|]. simpl.
  destruct (Hroom loc n Href) as [Hlo Hhi].
  assert (Js.add (halfMoves n) 1 = halfMoves n + 1) as Hadd.
  { apply add_one_exact; lia. }
  split.
  - apply (plyConsistent_modifyAt _ loc _ n Hr Href); [done|].
    pose proof (plyConsistent_sub _ _ _ Hr Href) as Hn.
    apply plyConsistent_node. simpl. intros c [Hc|Hc]%elem_of_app.
    + by apply (proj1 (plyConsistent_node n) Hn).
    + apply list_elem_of_singleton in Hc as ->. split; [done|].
      by apply plyConsistent_leaf.
  - apply (AllNodes_modifyAt _ _ _ loc n); [|done|done|].
    { intros a b Hab. by rewrite <- (halfMoves_shallow a), Hab, halfMoves_shallow. }
    apply AllNodes_pushed.
    + intros a b Hab. by rewrite <- (halfMoves_shallow a), Hab, halfMoves_shallow.
    + by eapply AllNodes_sub.
    + apply AllNodes_leaf; [done|]. simpl. lia.
Qed.

Lemma makeMoves_ply moves : ∀ state state',
  plyConsistent (root state) →
  pliesWithin (Z.of_nat (length moves)) (root state) →
  makeMoves chess_new chess_move state moves = Returns state' → plyConsistent (root state').
Proof.
  induction moves as [|mv moves IH]; intros state state' Hr Hroom; simpl.
  - by intros [= <-].
  - destruct (makeMove chess_new chess_move state (Algebraic mv)) as [s| |] eqn:Hs;
      simpl; try done.
    apply (makeMove_ply (Z.of_nat (length moves))) in Hs as [Hs Hrest];
      [by apply IH|lia|done|].
    by replace (Z.of_nat (length moves) + 1) with (Z.of_nat (length (mv :: moves)))
      by (simpl; lia).
Qed.

Lemma deleteMove_ply state path state' :
  plyConsistent (root state) →
  deleteMove state path = Returns state' → plyConsistent (root state').
Proof.
  intros Hr. unfold deleteMove.
  destruct (getRefAtPath (root state) path) as [[[nloc n]|]| |];
    simpl; try done; [|by intros [= <-]].
  destruct (getRefAtPath (root state) (slice_init path)) as [[[ploc p]|]| |] eqn:Href;
    simpl; try done; [|by intros [= <-]].
  intros [= <-]. simpl. apply getRefAtPath_nodeAt in Href.
  apply (plyConsistent_modifyAt _ ploc _ p Hr Href); [done|].
  apply plyConsistent_children; [by eapply plyConsistent_sub|].
  intros c Hc. by eapply list_elem_of_delete_inv.
Qed.

Lemma promoteVariation_ply state path state' :
  plyConsistent (root state) →
  promoteVariation state path = Returns state' → plyConsistent (root state').
Proof.
  intros Hr. unfold promoteVariation. destruct (reduceRight _ _ path) as [v i].
  case_bool_decide; [by intros [= <-]|]. case_bool_decide; [by intros [= <-]|].
  destruct (getRefAtPath (root state) (slice_to i path)) as [[[loc n]|]| |] eqn:Href;
    simpl; try done; [|by intros [= <-]].
  destruct (take 1 _ !! 0%nat) as [c|] eqn:Hc; [|done]. intros [= <-]. simpl.
  apply getRefAtPath_nodeAt in Href.
  apply (plyConsistent_modifyAt _ loc _ n Hr Href); [done|].
  apply plyConsistent_children; [by eapply plyConsistent_sub|].
  intros c' [->|Hc']%elem_of_cons.
  - rewrite lookup_take_lt, lookup_drop in Hc by lia.
    by eapply list_elem_of_lookup_2.
  - by eapply list_elem_of_delete_inv.
Qed.

Lemma modifyAt_fields_ply f state loc n :
  plyConsistent (root state) → nodeAt (root state) loc = Some n →
  (∀ x, children (f x) = children x ∧ halfMoves (f x) = halfMoves x) →
  plyConsistent (modifyAt f (root state) loc).
Proof.
  intros Hr Hn Hf. apply (plyConsistent_modifyAt _ loc _ n Hr Hn); [by apply Hf|].
  pose proof (plyConsistent_sub _ _ _ Hr Hn) as Hsub.
  apply plyConsistent_node. destruct (Hf n) as [-> ->].
  by apply plyConsistent_node.
Qed.

Lemma editCurrent_ply f state state' :
  (∀ x, children (f x) = children x ∧ halfMoves (f x) = halfMoves x) →
  plyConsistent (root state) →
  editCurrent f state = Returns state' → plyConsistent (root state').
Proof.
  intros Hf Hr. unfold editCurrent.
  destruct (getRefAtPath (root state) (position state)) as [[[loc n]|]| |] eqn:Href;
    simpl; try done; intros [= <-]; [|done].
  apply getRefAtPath_nodeAt in Href. by apply (modifyAt_fields_ply f state loc n).
Qed.

Lemma setShapes_ply state batch state' :
  plyConsistent (root state) →
  setShapes state batch = Returns state' → plyConsistent (root state').
Proof.
  intros Hr. unfold setShapes.
  destruct (getRefAtPath (root state) (position state)) as [[[loc n]|]| |] eqn:Href;
    simpl; try done; [|by intros [= <-]].
  apply getRefAtPath_nodeAt in Href.
  destruct (findIndexM _ (shapes n)) as [index| |]; simpl; try done.
  case_bool_decide.
  - intros [= <-]. by apply (modifyAt_fields_ply _ state loc n).
  - destruct (Js.index batch 0); [|done]. intros [= <-].
    by apply (modifyAt_fields_ply _ state loc n).
Qed.

Lemma addAnalysis_loop_ply analysis cur : ∀ i,
  plyConsistent cur →
  halfMoves (addAnalysis_loop getAnnotation analysis i cur) = halfMoves cur
  ∧ plyConsistent (addAnalysis_loop getAnnotation analysis i cur).
Proof.
  induction cur as [cur IH] using TreeNode_children_ind. intros i Hcur.
  rewrite addAnalysis_loop_unfold.
  destruct (analysis !! i) as [a|]; [|done].
  assert (halfMoves (analyse getAnnotation analysis i a cur) = halfMoves cur) as Hhm.
  { unfold analyse. by destruct (novelty a). }
  pose proof (proj1 (plyConsistent_node cur) Hcur) as Hchildren.
  destruct (children cur) as [|next others] eqn:Hc.
  - split; [done|]. apply plyConsistent_leaf. by rewrite analyse_children.
  - split; [done|]. apply plyConsistent_node.
    cbn [children set_children halfMoves]. rewrite Hhm.
    apply Forall_cons_1 in IH as [IHnext _].
    intros c [->|Hc']%elem_of_cons.
    + destruct (Hchildren next) as [Hn Hsub]; [left|].
      destruct (IHnext (S i) Hsub) as [-> Hloop]. by split.
    + apply Hchildren. by right.
Qed.

Lemma addAnalysis_ply state analysis :
  plyConsistent (root state) →
  plyConsistent (root (addAnalysis getAnnotation state analysis)).
Proof.
  intros Hr. unfold addAnalysis.
  destruct (children (root state)) as [|cur others] eqn:Hc; [done|]. simpl.
  pose proof (proj1 (plyConsistent_node _) Hr) as Hchildren. rewrite Hc in Hchildren.
  apply plyConsistent_node. cbn [children set_children halfMoves].
  intros c [->|Hc']%elem_of_cons.
  - destruct (Hchildren cur) as [Hn Hsub]; [left|].
    destruct (addAnalysis_loop_ply analysis cur 0 Hsub) as [-> Hloop]. by split.
  - apply Hchildren. by right.
Qed.

(** X18: ply indices stay consistent.  If the ply index of every node is
    that of the root plus the depth of the node, the same holds after every
    action that returns, SET_STATE apart, whose payload is taken as it
    comes, provided an action that plays moves finds every ply index
    between -2^53 and 2^53 minus the number of its moves, where adding one
    to a double is exact: new nodes are created one ply after their parent,
    and deletion, promotion and the edits move or change nodes without
    changing their depth or ply index. *)
Theorem ply_indices_consistent state action state' :
  plyConsistent (root state) →
  (movesOf action ≠ [] →
   pliesWithin (Z.of_nat (length (movesOf action))) (root state)) →
  (∀ payload, action ≠ SET_STATE payload) →
  dispatch chess_new chess_move getAnnotation state action = Returns state' →
  plyConsistent (root state').
Proof.
  intros Hr Hroom Haction. unfold dispatch, treeReducer.
  destruct action as [|payload| |payload|payload|payload|payload|payload| | | |
                      |payload|payload|payload|html text|payload|payload
                      |payload|payload|payload|payload];
    try (intros [= <-]; done).
  - by destruct (Haction payload).
  - intros [= <-]. by apply plyConsistent_leaf.
  - destruct (makeMove chess_new chess_move (set_dirty state true) payload) as [s| |] eqn:Hs;
      simpl; try done. intros [= <-].
    apply (makeMove_ply 0) in Hs as [Hs _]; [done|done|done|].
    by apply Hroom.
  - destruct (makeMoves chess_new chess_move (set_dirty state true) payload) as [s| |] eqn:Hs;
      simpl; try done. intros [= <-].
    destruct payload as [|mv rest]; [by injection Hs as <-|].
    apply makeMoves_ply in Hs; [done|done|].
    cbn [movesOf] in Hroom. rewrite length_fmap in Hroom. by apply Hroom.
  - destruct (getNodeAtPath (root state) (position state)) as [[n|]| |];
      simpl; try done; [|by intros [= <-]].
    case_bool_decide; by intros [= <-].
  - case_bool_decide; by intros [= <-].
  - destruct (deleteMove (set_dirty state true) _) as [s| |] eqn:Hs;
      simpl; try done. intros [= <-]. by apply deleteMove_ply in Hs.
  - destruct (editCurrent _ (set_dirty state true)) as [s| |] eqn:Hs;
      simpl; try done. intros [= <-]. apply editCurrent_ply in Hs; [done| |done].
    intros x. unfold toggleAnnotation. by case_decide.
  - destruct (editCurrent _ (set_dirty state true)) as [s| |] eqn:Hs;
      simpl; try done. intros [= <-]. by apply editCurrent_ply in Hs.
  - intros [= <-]. by apply plyConsistent_leaf.
  - destruct (editCurrent _ (set_dirty state true)) as [s| |] eqn:Hs;
      simpl; try done. intros [= <-]. by apply editCurrent_ply in Hs.
  - destruct (setShapes (set_dirty state true) payload) as [s| |] eqn:Hs;
      simpl; try done. intros [= <-]. by apply setShapes_ply in Hs.
  - simpl. intros [= <-]. by apply addAnalysis_ply.
  - destruct (promoteVariation (set_dirty state true) payload) as [s| |] eqn:Hs;
      simpl; try done. intros [= <-]. by apply promoteVariation_ply in Hs.
Qed.

End Ply.

(** Two moves from the default tree: the second node is two plies deep. *)
Lemma ply_indices_consistent_witness :
  plyConsistent (root (defaultTree None))
  ∧ pliesWithin (Z.of_nat (length (movesOf (MAKE_MOVES ["e4"; "e5"]))))
      (root (defaultTree None))
  ∧ (∀ payload, MAKE_MOVES ["e4"; "e5"] ≠ SET_STATE payload)
  ∧ ∃ state',
      dispatch Scenario.toy_new Scenario.toy_chess Scenario.toy_annotation (defaultTree None)
               (MAKE_MOVES ["e4"; "e5"]) = Returns state'
      ∧ plyConsistent (root state')
      ∧ halfMoves <$> nodeAt (root state') [0%nat; 0%nat] = Some 2.
Proof.
  assert (plyConsistent (root (defaultTree None))) as Hstart.
  { by apply plyConsistent_leaf. }
  assert (pliesWithin (Z.of_nat (length (movesOf (MAKE_MOVES ["e4"; "e5"]))))
            (root (defaultTree None))) as Hroom.
  { apply AllNodes_leaf; [reflexivity|]. simpl. lia. }
  split; [exact Hstart|]. split; [exact Hroom|]. split; [discriminate|].
  eexists. split; [reflexivity|]. split; [|reflexivity].
  eapply (ply_indices_consistent Scenario.toy_new Scenario.toy_chess Scenario.toy_annotation
            (defaultTree None) (MAKE_MOVES ["e4"; "e5"]));
    [exact Hstart|intros _; exact Hroom|discriminate|reflexivity].
Defined.

(** ** The name of a game *)

(** X19: [getGameName] never returns the empty string.  It returns
    "white - black" as soon as one of the two players has a name other than
    "?", with the other side printed as it is, even empty or "?"; without
    such a name it returns the event when there is one and "Unknown"
    otherwise. *)
Theorem getGameName_cases h :
  getGameName h ≠ ""
  ∧ ((white h ≠ "" ∧ white h ≠ "?") ∨ (black h ≠ "" ∧ black h ≠ "?") →
     getGameName h = white h +:+ " - " +:+ black h)
  ∧ (¬ (white h ≠ "" ∧ white h ≠ "?") → ¬ (black h ≠ "" ∧ black h ≠ "?") →
     event h ≠ "" → getGameName h = event h)
  ∧ (¬ (white h ≠ "" ∧ white h ≠ "?") → ¬ (black h ≠ "" ∧ black h ≠ "?") →
     event h = "" → getGameName h = "Unknown").
Proof.
  assert (∀ s : string,
            bool_decide (s ≠ "") && bool_decide (s ≠ "?") = true ↔ s ≠ "" ∧ s ≠ "?")
    as Hnamed.
  { intros s. by rewrite andb_true_iff, !bool_decide_eq_true. }
  unfold getGameName.
  destruct (bool_decide (white h ≠ "") && bool_decide (white h ≠ "?")) eqn:Hw;
    [|destruct (bool_decide (black h ≠ "") && bool_decide (black h ≠ "?")) eqn:Hb];
    cbn [orb].
  - apply Hnamed in Hw. split; [by destruct (white h)|]. split; [done|].
    split; intros Hwhite; by destruct Hwhite.
  - apply Hnamed in Hb. split; [by destruct (white h)|]. split; [done|].
    split; intros _ Hblack; by destruct Hblack.
  - assert (¬ (white h ≠ "" ∧ white h ≠ "?")) as Hw'.
    { intros Hn. apply Hnamed in Hn. congruence. }
    assert (¬ (black h ≠ "" ∧ black h ≠ "?")) as Hb'.
    { intros Hn. apply Hnamed in Hn. congruence. }
    clear Hw Hb. case_bool_decide as He.
    + split; [exact He|]. split; [by intros [?|?]|].
      split; [done|]. by intros _ _ ?.
    + split; [done|]. split; [by intros [?|?]|].
      split; [|done]. by intros _ _ ?.
Qed.

(** ** The lenient rule, in general *)

Section Leniency.
Variable chess_new : string -> bool.
Variable chess_move : string -> MoveDescriptor -> option (Move * string).
Variable getAnnotation : Score -> Score -> string -> Annotation.

Lemma fen_shallow n : fen (shallow n) = fen n.
Proof. by destruct n. Qed.

Lemma loads_shallow a b :
  shallow a = shallow b → chess_new (fen a) = true → chess_new (fen b) = true.
Proof. intros Hab. by rewrite <- (fen_shallow a), Hab, fen_shallow. Qed.

Lemma makeMove_returns state mv :
  Forall (λ i, 0 <= i) (position state) →
  loadsPositions chess_new chess_move (root state) →
  ∃ state', makeMove chess_new chess_move state mv = Returns state'
            ∧ Forall (λ i, 0 <= i) (position state')
            ∧ loadsPositions chess_new chess_move (root state').
Proof.
  intros Hpos [Htree Hout]. unfold makeMove.
  destruct (getRefAtPath_nonneg (root state) _ Hpos) as (loc & n & Href).
  rewrite Href. cbn [Js.bind]. apply getRefAtPath_nodeAt in Href.
  unfold chess_result. rewrite (Htree loc n Href).
  destruct (chess_move (fen n) mv) as [[m newFen]|] eqn:Hmv;
    [|by exists state].
  case_bool_decide as Hi; eexists; (split; [done|]); cbn [position root set_position].
  - split; [|done]. apply Forall_app. split; [done|]. repeat constructor.
    by apply findIndex_from_nonneg.
  - split.
    + apply Forall_app. split; [done|]. repeat constructor.
      rewrite length_app. simpl. lia.
    + split; [|done].
      apply (AllNodes_modifyAt _ _ _ loc n loads_shallow Htree Href).
      apply (AllNodes_pushed _ _ _ loads_shallow); [by eapply AllNodes_sub|].
      apply AllNodes_leaf; [done|]. simpl. by eapply Hout.
Qed.

Lemma makeMoves_returns moves : ∀ state,
  Forall (λ i, 0 <= i) (position state) →
  loadsPositions chess_new chess_move (root state) →
  ∃ state', makeMoves chess_new chess_move state moves = Returns state'.
Proof.
  induction moves as [|mv moves IH]; intros state Hpos Hloads; simpl; [by eauto|].
  destruct (makeMove_returns state (Algebraic mv) Hpos Hloads)
    as (state1 & -> & Hpos1 & Hloads1).
  simpl. by apply IH.
Qed.

(** X20: no action raises on paths without negative indices.  When the
    current path has no negative index, the path of a DELETE_MOVE or
    PROMOTE_VARIATION payload has none either, a SET_SHAPES batch is not
    empty and, for an action that plays moves, the collaborator builds its
    board from every position stored in the tree and from every position it
    gives out after a move, dispatch does not raise, whatever the tree and
    however far the paths run out of range. *)
Theorem dispatch_never_raises state action :
  Forall (λ i, 0 <= i) (position state) → addressable action →
  (movesOf action ≠ [] → loadsPositions chess_new chess_move (root state)) →
  dispatch chess_new chess_move getAnnotation state action ≠ Throws.
Proof.
  intros Hpos Haction Hloads. unfold dispatch, treeReducer.
  destruct action as [|payload| |payload|payload|payload|payload|payload| | | |
                      |payload|[payload|]|payload|html text|payload|payload
                      |payload|payload|payload|payload]; try (simpl; done).
  - destruct (makeMove_returns (set_dirty state true) payload Hpos) as (s & -> & _);
      [by apply Hloads|done].
  - destruct payload as [|mv rest]; [done|].
    destruct (makeMoves_returns (mv :: rest) (set_dirty state true) Hpos) as (s & ->);
      [by apply Hloads|done].
  - destruct (getNodeAtPath_nonneg (root state) _ Hpos) as (n & ->). simpl.
    by case_bool_decide.
  - simpl. by case_bool_decide.
  - simpl.
    by destruct (deleteMove_nonneg (set_dirty state true) payload Haction) as (s & ->).
  - simpl.
    by destruct (deleteMove_nonneg (set_dirty state true) (position state) Hpos)
      as (s & ->).
  - by destruct (editCurrent_nonneg (toggleAnnotation payload)
                   (set_dirty state true) Hpos) as (s & ->).
  - by destruct (editCurrent_nonneg (λ n, set_comment n html text)
                   (set_dirty state true) Hpos) as (s & ->).
  - by destruct (editCurrent_nonneg (λ n, set_score n (Some payload))
                   (set_dirty state true) Hpos) as (s & ->).
  - destruct payload as [|m rest]; [done|].
    by destruct (setShapes_nonneg (set_dirty state true) m rest Hpos) as (s & ->).
  - pose proof (promoteVariation_nonneg (set_dirty state true) payload Haction).
    by destruct (promoteVariation (set_dirty state true) payload).
Qed.

(** X24: the lenient rule stops at the collaborator.  When the current path
    resolves to a node from whose position the collaborator builds no
    board, MAKE_MOVE raises, whatever the move, and so does MAKE_MOVES with
    a batch that is not empty: the board is built before the guarded call. *)
Theorem make_move_raises_on_refused_position state n mv first rest :
  getNodeAtPath (root state) (position state) = Returns (Some n) →
  chess_new (fen n) = false →
  dispatch chess_new chess_move getAnnotation state (MAKE_MOVE mv) = Throws
  ∧ dispatch chess_new chess_move getAnnotation state (MAKE_MOVES (first :: rest)) =
    Throws.
Proof.
  rewrite getNodeAtPath_ref. intros Hn Hrefused.
  assert (∀ mv', makeMove chess_new chess_move (set_dirty state true) mv' = Throws)
    as Hraise.
  { intros mv'. unfold makeMove. cbn [root position set_dirty].
    destruct (getRefAtPath (root state) (position state)) as [[[loc n']|]| |];
      try done.
    simpl in Hn. injection Hn as ->. cbn [Js.bind]. unfold chess_result.
    by rewrite Hrefused. }
  unfold dispatch, treeReducer. cbn [makeMoves]. by rewrite !Hraise.
Qed.

(** X21: DELETE_MOVE at a path on which resolution stopped before the end
    of the path is not a no-op when the node at which it stopped has
    children: that node loses its last child, because the node and its
    parent are then the same reference and the index search answers -1. *)
Theorem delete_unresolved_path state path loc n :
  getRefAtPath (root state) path = Returns (Some (loc, n)) →
  (length loc < length path)%nat →
  ∃ state' n',
    dispatch chess_new chess_move getAnnotation state (DELETE_MOVE (Some path)) =
      Returns state'
    ∧ nodeAt (root state') loc = Some n'
    ∧ shallow n' = shallow n
    ∧ (children n = [] → children n' = [])
    ∧ (∀ front last, children n = front ++ [last] → children n' = front).
Proof.
  intros Href Hlen.
  destruct (deleteMove_unresolved (set_dirty state true) path loc n Href Hlen)
    as (state' & Hrun & Hroot).
  rewrite dispatch_DELETE_MOVE, Hrun. exists state'.
  exists (set_children n (slice_init (children n))). split; [done|].
  rewrite Hroot. cbn [root set_dirty].
  apply getRefAtPath_nodeAt in Href.
  split; [by rewrite (nodeAt_modifyAt _ _ _ _ Href)|]. split; [done|].
  cbn [children set_children]. split.
  - by intros ->.
  - intros front last ->. apply slice_init_snoc.
Qed.

(** X22: PROMOTE_VARIATION ignores every path that starts with a nonzero
    index: the tree, the current path and the headers are as they were and
    the dirty flag is set. *)
Theorem promote_ignores_nonzero_head state v rest :
  v ≠ 0 →
  dispatch chess_new chess_move getAnnotation state (PROMOTE_VARIATION (v :: rest)) =
  Returns (mkState (root state) (headers state) (position state) true).
Proof.
  intros Hv. rewrite dispatch_PROMOTE_VARIATION.
  by rewrite promoteVariation_nonzero_head.
Qed.

End Leniency.

(** The collaborator of the scenarios loads what it gives out. *)
Lemma toy_chess_loads f mv m newFen :
  Scenario.toy_chess f mv = Some (m, newFen) → Scenario.toy_new newFen = true.
Proof.
  destruct mv as [from to promotion|notation]; simpl; [done|].
  case_bool_decide; [|done]. intros [= <- <-].
  apply bool_decide_eq_true_2. by destruct f.
Qed.

(** Two moves from the default tree, with a current path out of range. *)
Lemma dispatch_never_raises_witness :
  Forall (λ i, 0 <= i) (position (set_position (defaultTree None) [4; 0]))
  ∧ addressable (MAKE_MOVES ["e4"; "e5"])
  ∧ loadsPositions Scenario.toy_new Scenario.toy_chess
      (root (set_position (defaultTree None) [4; 0]))
  ∧ dispatch Scenario.toy_new Scenario.toy_chess Scenario.toy_annotation
      (set_position (defaultTree None) [4; 0]) (MAKE_MOVES ["e4"; "e5"])
    ≠ Throws.
Proof.
  assert (Forall (λ i, 0 <= i) [4; 0]) as Hpos by (repeat constructor; lia).
  assert (loadsPositions Scenario.toy_new Scenario.toy_chess
            (root (set_position (defaultTree None) [4; 0]))) as Hloads.
  { split; [by apply AllNodes_leaf|]. apply toy_chess_loads. }
  split; [exact Hpos|]. split; [exact I|]. split; [exact Hloads|].
  apply (dispatch_never_raises Scenario.toy_new Scenario.toy_chess Scenario.toy_annotation
           (set_position (defaultTree None) [4; 0]) (MAKE_MOVES ["e4"; "e5"]));
    [exact Hpos|exact I|intros _; exact Hloads].
Defined.

(** After SET_FEN with the empty string no move can be played. *)
Lemma make_move_raises_on_refused_position_witness :
  getNodeAtPath (root (defaultTree (Some EmptyString)))
    (position (defaultTree (Some EmptyString))) =
    Returns (Some (defaultRoot (Some EmptyString)))
  ∧ Scenario.toy_new (fen (defaultRoot (Some EmptyString))) = false
  ∧ dispatch Scenario.toy_new Scenario.toy_chess Scenario.toy_annotation
      (defaultTree (Some EmptyString)) (MAKE_MOVE (Algebraic "e4")) = Throws
  ∧ dispatch Scenario.toy_new Scenario.toy_chess Scenario.toy_annotation
      (defaultTree (Some EmptyString)) (MAKE_MOVES ("e4" :: ["e5"])) = Throws.
Proof.
  split; [reflexivity|]. split; [reflexivity|].
  apply (make_move_raises_on_refused_position Scenario.toy_new Scenario.toy_chess
           Scenario.toy_annotation (defaultTree (Some EmptyString))
           (defaultRoot (Some EmptyString)) (Algebraic "e4") "e4" ["e5"]);
    reflexivity.
Defined.

(** The path [[0, 7]] stops at A, which loses its only child A1. *)
Lemma delete_unresolved_path_witness :
  getRefAtPath (root Scenario.two_lines) [0; 7] =
    Returns (Some ([0%nat], Scenario.A))
  ∧ (length [0%nat] < length [0; 7])%nat
  ∧ ∃ state',
      dispatch Scenario.toy_new Scenario.toy_chess Scenario.toy_annotation Scenario.two_lines
               (DELETE_MOVE (Some [0; 7])) = Returns state'
      ∧ children <$> nodeAt (root state') [0%nat] = Some [].
Proof.
  split; [reflexivity|]. split; [simpl; lia|].
  destruct (delete_unresolved_path Scenario.toy_new Scenario.toy_chess Scenario.toy_annotation
              Scenario.two_lines [0; 7] [0%nat] Scenario.A eq_refl
              ltac:(simpl; lia))
    as (state' & n' & Hrun & Hn' & _ & _ & Hlast).
  exists state'. split; [exact Hrun|].
  rewrite Hn'. simpl. f_equal. exact (Hlast [] Scenario.A1 eq_refl).
Defined.

Lemma promote_ignores_nonzero_head_witness :
  (1 ≠ 0)
  ∧ dispatch Scenario.toy_new Scenario.toy_chess Scenario.toy_annotation Scenario.two_lines
      (PROMOTE_VARIATION (1 :: [0])) =
    Returns (mkState (root Scenario.two_lines) (headers Scenario.two_lines)
                     (position Scenario.two_lines) true).
Proof.
  split; [lia|].
  apply (promote_ignores_nonzero_head Scenario.toy_new Scenario.toy_chess Scenario.toy_annotation
           Scenario.two_lines 1 [0]). lia.
Defined.

(** ** The length of the mainline *)

(** X23: [countMainPly] is the length of the chain of first children: the
    node reached from a node by [k] first-child steps exists exactly when
    [k] is at most the count, so the count is 0 for a node without children
    and [N] when the chain has [N] nodes below the node. *)
Theorem countMainPly_is_mainline_length n k :
  is_Some (nodeAt n (replicate k 0%nat)) ↔ (k <= countMainPly n)%nat.
Proof. apply countMainPly_mainline. Qed.
